(** * MayaLens API: image controller, generation records and their lifecycle

    A shallow embedding of [api/src/controllers/imageController.ts], of the
    image router of [api/src/routes] and of [generateImageSchema] of
    [utils/validation], followed by the properties of the generation-job
    lifecycle that the specification states about them.

    Conventions of the embedding:
    - a database table is a finite map from the row's [id] to the row;
    - a Prisma call may throw: every call takes a flag saying whether it
      throws in the run under consideration, besides the cases where the
      client throws by itself (an [update] of a row that does not exist);
    - an [async] handler is a computation in [M], a state and exception
      monad over the [World]; the handler's [try]/[catch] is [tryCatch];
    - [res.status(c).json(b); return] is the value a handler returns;
    - a pending [setTimeout] callback is a [Timer] of the world;
    - strings are sequences of code units below 256. *)

From stdpp Require Import base option list strings gmap.
From Stdlib Require Import Ascii String NArith.

Local Open Scope string_scope.
Local Open Scope list_scope.

Set Warnings "-clear-no-such-hyp".

(** ** JavaScript values of a request body *)

Inductive JsVal :=
| JsString (s : string)
| JsBool (b : bool)
| JsNumber (n : Z)
| JsNull.

(** [if (v)] and [Boolean(v)] for a field that may be absent. *)
Definition truthy (v : option JsVal) : bool :=
  match v with
  | None => false
  | Some (JsString s) => negb (bool_decide (s = ""))
  | Some (JsBool b) => b
  | Some (JsNumber n) => negb (bool_decide (n = 0%Z))
  | Some JsNull => false
  end.

(** [if (s)] for an optional string. *)
Definition truthyStr (v : option string) : bool :=
  match v with
  | None => false
  | Some s => negb (bool_decide (s = ""))
  end.

(** ** Enumerations of the Prisma client *)

(** The members of [UserRole] that the sources mention (the controllers, the
    middleware and the seed script). *)
Inductive UserRole := ADMIN | SYSTEM_ADMIN | TEAM_OWNER | TEAM_MEMBER.

Global Instance UserRole_eq_dec : EqDecision UserRole.
Proof. solve_decision. Defined.

(** Modelled from the spec: the declaration of [GenerationStatus] (the Prisma
    schema) is not among the sources.  The specification lists the states
    [PENDING], [RUNNING], [COMPLETED], [FAILED]; the controller writes
    [PENDING], [COMPLETED] and [FAILED]. *)
Inductive GenerationStatus := PENDING | RUNNING | COMPLETED | FAILED.

Global Instance GenerationStatus_eq_dec : EqDecision GenerationStatus.
Proof. solve_decision. Defined.

(** ** Rows *)

Definition Time := nat.

(** [req.user], restricted to the fields the image controller reads. *)
Record User := mkUser {
  user_id : string;
  user_role : UserRole
}.

Record Product := mkProduct {
  product_userId : string;
  product_name : string
}.

Record ProductImage := mkProductImage {
  pi_productId : string;
  pi_imageUrl : string;
  pi_altText : string;
  pi_isPrimary : bool;
  pi_createdAt : Time
}.

Record ImageGeneration := mkImageGeneration {
  ig_prompt : string;
  ig_style : string;
  ig_format : string;
  ig_status : GenerationStatus;
  ig_userId : string;
  ig_productId : option string;
  ig_imageUrl : option string;
  ig_errorMessage : option string;
  ig_createdAt : Time;
  ig_completedAt : option Time
}.

(** The closure passed to [setTimeout] in [generateImage]: it captures
    [imageGeneration.id] and [style]. *)
Record Timer := mkTimer {
  timer_job : string;
  timer_style : string
}.

(** ** The world: database tables, generated identifiers, pending timers *)

Record World := mkWorld {
  products : gmap string Product;
  productImages : gmap string ProductImage;
  imageGenerations : gmap string ImageGeneration;
  (** identifiers the database has generated so far: a generated [id] is
      never handed out twice, also after its row is deleted *)
  issued : gset string;
  timers : list Timer
}.

Definition set_products (f : gmap string Product → gmap string Product) (w : World) : World :=
  mkWorld (f (products w)) (productImages w) (imageGenerations w) (issued w) (timers w).

Definition set_productImages (f : gmap string ProductImage → gmap string ProductImage)
    (w : World) : World :=
  mkWorld (products w) (f (productImages w)) (imageGenerations w) (issued w) (timers w).

Definition set_imageGenerations
    (f : gmap string ImageGeneration → gmap string ImageGeneration) (w : World) : World :=
  mkWorld (products w) (productImages w) (f (imageGenerations w)) (issued w) (timers w).

Definition set_issued (f : gset string → gset string) (w : World) : World :=
  mkWorld (products w) (productImages w) (imageGenerations w) (f (issued w)) (timers w).

Definition set_timers (f : list Timer → list Timer) (w : World) : World :=
  mkWorld (products w) (productImages w) (imageGenerations w) (issued w) (f (timers w)).

(** ** The monad of handlers *)

Inductive Exc (A : Type) :=
| Returned (a : A)
| Thrown.
Arguments Returned {A} a.
Arguments Thrown {A}.

Definition M (A : Type) : Type := World → Exc A * World.

Global Instance M_ret : MRet M := λ A a w, (Returned a, w).

Global Instance M_bind : MBind M := λ A B f m w,
  match m w with
  | (Returned a, w') => f a w'
  | (Thrown, w') => (Thrown, w')
  end.

Definition throw {A} : M A := λ w, (Thrown, w).

(** [try { body } catch (error) { handler }] *)
Definition tryCatch {A} (body handler : M A) : M A := λ w,
  match body w with
  | (Returned a, w') => (Returned a, w')
  | (Thrown, w') => handler w'
  end.

Definition gets {A} (f : World → A) : M A := λ w, (Returned (f w), w).
Definition modify (f : World → World) : M unit := λ w, (Returned tt, f w).

(** A database call that throws when [throws] is set. *)
Definition dbCall {A} (throws : bool) (op : M A) : M A :=
  if throws then throw else op.

(** The database generates the [id] of a new row. *)
Definition generateId : M string := λ w,
  let i := fresh (issued w) in (Returned i, set_issued (λ s, {[i]} ∪ s) w).

(** ** Prisma calls of the image controller *)

Definition product_findUnique (throws : bool) (id : string) : M (option Product) :=
  dbCall throws (gets (λ w, products w !! id)).

(** [updateMany({ where: { productId, isPrimary: true }, data: { isPrimary: false } })] *)
Definition demote (productId : string) (img : ProductImage) : ProductImage :=
  if bool_decide (pi_productId img = productId) && pi_isPrimary img
  then mkProductImage (pi_productId img) (pi_imageUrl img) (pi_altText img) false
         (pi_createdAt img)
  else img.

Definition productImage_unsetPrimary (throws : bool) (productId : string) : M unit :=
  dbCall throws (modify (set_productImages (fmap (demote productId)))).

Definition productImage_create (throws : bool) (row : ProductImage) : M string :=
  dbCall throws (i ← generateId; modify (set_productImages <[i := row]>);; mret i).

Definition productImage_findUnique (throws : bool) (id : string) : M (option ProductImage) :=
  dbCall throws (gets (λ w, productImages w !! id)).

(** [delete({ where: { id } })] throws when there is no such row. *)
Definition productImage_delete (throws : bool) (id : string) : M unit :=
  dbCall throws (λ w,
    match productImages w !! id with
    | Some _ => (Returned tt, set_productImages (delete id) w)
    | None => (Thrown, w)
    end).

Definition imageGeneration_create (throws : bool) (row : ImageGeneration) : M string :=
  dbCall throws (i ← generateId; modify (set_imageGenerations <[i := row]>);; mret i).

(** [update({ where: { id }, data })] throws when there is no such row;
    [data] is the function that overwrites the listed fields. *)
Definition imageGeneration_update (throws : bool) (id : string)
    (data : ImageGeneration → ImageGeneration) : M unit :=
  dbCall throws (λ w,
    match imageGenerations w !! id with
    | Some row => (Returned tt, set_imageGenerations <[id := data row]> w)
    | None => (Thrown, w)
    end).

Definition imageGeneration_findUnique (throws : bool) (id : string)
    : M (option ImageGeneration) :=
  dbCall throws (gets (λ w, imageGenerations w !! id)).

(** ** Responses *)

(** [select] of the record created by [generateImage]. *)
Record GenerationSummary := mkGenerationSummary {
  gs_id : string;
  gs_prompt : string;
  gs_style : string;
  gs_format : string;
  gs_status : GenerationStatus;
  gs_createdAt : Time;
  gs_product : option (string * string)
}.

(** [select] of [getImageGeneration]: the row with its [id], the [id] of the
    related user and the [id] and [name] of the related product, if any.
    (The first and last name of the related user are left out.) *)
Record GenerationView := mkGenerationView {
  gv_id : string;
  gv_row : ImageGeneration;
  gv_userId : string;
  gv_product : option (string * string)
}.

(** [select] of the record created by [uploadProductImage]. *)
Record ProductImageView := mkProductImageView {
  pv_id : string;
  pv_imageUrl : string;
  pv_altText : string;
  pv_isPrimary : bool;
  pv_createdAt : Time;
  pv_product : option (string * string)
}.

Inductive Body :=
| ErrorBody (message error : string)
| ValidationErrorBody (details : list (string * string))
| RouteNotFoundBody (path : list string)
| MessageBody (message : string)
| GenerationStarted (data : GenerationSummary)
| GenerationRetrieved (data : GenerationView)
| ProductImageUploaded (data : ProductImageView).

Record Response := mkResponse {
  res_status : nat;
  res_body : Body
}.

Definition respond (code : nat) (b : Body) : M Response := mret (mkResponse code b).

(** The product joined to a row: [{ id, name }]. *)
Definition joinProduct (w : World) (productId : option string) : option (string * string) :=
  pid ← productId; p ← products w !! pid; Some (pid, product_name p).

(** ** Strings of the runtime *)

(** White space of [String.prototype.trim] among the code units below 256. *)
Definition isWhiteSpace (c : ascii) : bool :=
  let n := N_of_ascii c in
  (((9 <=? n) && (n <=? 13)) || (n =? 32) || (n =? 160))%N.

Fixpoint trimStart (s : string) : string :=
  match s with
  | String c r => if isWhiteSpace c then trimStart r else s
  | EmptyString => EmptyString
  end.

Definition trim (s : string) : string :=
  String.rev (trimStart (String.rev (trimStart s))).

(** Characters [encodeURIComponent] leaves alone. *)
Definition isUnreserved (c : ascii) : bool :=
  let n := N_of_ascii c in
  (((65 <=? n) && (n <=? 90)) || ((97 <=? n) && (n <=? 122))
   || ((48 <=? n) && (n <=? 57)))%N
  || bool_decide (c ∈ list_ascii_of_string "-_.!~*'()").

Definition hexDigit (n : N) : ascii :=
  match String.get (N.to_nat n) "0123456789ABCDEF" with
  | Some c => c
  | None => "0"%char
  end.

Definition pctByte (b : N) : string :=
  String "%" (String (hexDigit (b / 16)) (String (hexDigit (b mod 16)) EmptyString)).

(** One code unit: kept, or the escapes of its UTF-8 bytes. *)
Definition encodeUnit (c : ascii) : string :=
  let n := N_of_ascii c in
  if isUnreserved c then String c EmptyString
  else if (n <? 128)%N then pctByte n
  else pctByte (192 + n / 64) +:+ pctByte (128 + n mod 64).

Fixpoint encodeURIComponent (s : string) : string :=
  match s with
  | EmptyString => EmptyString
  | String c r => encodeUnit c +:+ encodeURIComponent r
  end.

Section ImagesApi.

(** The test of Joi's [string().uuid()], a function of the library. *)
Variable isUuid : string → bool.

(** ** Validation: [validateRequest(generateImageSchema)] *)

(** The keys of the body that the schema knows ([stripUnknown] drops the
    others); [None] is an absent key. *)
Record RawBody := mkRawBody {
  raw_prompt : option JsVal;
  raw_style : option JsVal;
  raw_format : option JsVal;
  raw_productId : option JsVal
}.

(** [req.body] as [generateImage] destructures it. *)
Record GenerateBody := mkGenerateBody {
  body_prompt : string;
  body_style : string;
  body_format : option string;
  body_productId : option string
}.

(** A field is valid with a value, or fails with the type of Joi's error. *)
Definition Checked (A : Type) : Type := string + A.

(** [Joi.string().trim().min(5).max(500).required()] *)
Definition checkPrompt (v : option JsVal) : Checked string :=
  match v with
  | None => inl "any.required"
  | Some (JsString s) =>
      let t := trim s in
      if bool_decide (t = "") then inl "string.empty"
      else if (String.length t <? 5)%nat then inl "string.min"
      else if (500 <? String.length t)%nat then inl "string.max"
      else inr t
  | Some _ => inl "string.base"
  end.

(** [Joi.string().valid(...allowed).default(dflt)] *)
Definition checkOneOf (allowed : list string) (dflt : string) (v : option JsVal)
    : Checked string :=
  match v with
  | None => inr dflt
  | Some (JsString s) => if bool_decide (s ∈ allowed) then inr s else inl "any.only"
  | Some _ => inl "any.only"
  end.

Definition styles : list string :=
  ["REALISTIC"; "ARTISTIC"; "CARTOON"; "ABSTRACT"; "MINIMALIST"].

Definition formats : list string := ["SQUARE"; "PORTRAIT"; "LANDSCAPE"].

(** [Joi.string().uuid().optional()] *)
Definition checkProductId (v : option JsVal) : Checked (option string) :=
  match v with
  | None => inr None
  | Some (JsString s) =>
      if bool_decide (s = "") then inl "string.empty"
      else if isUuid s then inr (Some s) else inl "string.guid"
  | Some _ => inl "string.base"
  end.

Definition fieldError {A} (field : string) (c : Checked A) : list (string * string) :=
  match c with
  | inl e => [(field, e)]
  | inr _ => []
  end.

(** [schema.validate(req.body, { abortEarly: false, stripUnknown: true,
    convert: true })]: the errors of all fields, or the converted value. *)
Definition generateImageSchema (raw : RawBody)
    : list (string * string) + GenerateBody :=
  let p := checkPrompt (raw_prompt raw) in
  let s := checkOneOf styles "REALISTIC" (raw_style raw) in
  let f := checkOneOf formats "SQUARE" (raw_format raw) in
  let i := checkProductId (raw_productId raw) in
  match p, s, f, i with
  | inr p', inr s', inr f', inr i' => inr (mkGenerateBody p' s' (Some f') i')
  | _, _, _, _ =>
      inl (fieldError "prompt" p ++ fieldError "style" s
           ++ fieldError "format" f ++ fieldError "productId" i)
  end.

(** ** [generateImage] *)

Record GenerateRequest := mkGenerateRequest {
  greq_user : option User;
  greq_body : GenerateBody
}.

(** What the run of one call of [generateImage] meets: the clock and which
    of its database calls throw. *)
Record GenerateEnv := mkGenerateEnv {
  ge_now : Time;
  ge_findThrows : bool;
  ge_createThrows : bool
}.

(** [req.user.role === UserRole.ADMIN || req.user.id === ownerId] *)
Definition adminOrOwner (user : User) (ownerId : string) : bool :=
  bool_decide (user_role user = ADMIN) || bool_decide (user_id user = ownerId).

(** The block [if (productId) { ... }]: [Some r] when it answers [r] and
    returns, [None] when the handler goes on. *)
Definition validateProduct (env : GenerateEnv) (user : User) (productId : option string)
    : M (option Response) :=
  match productId with
  | Some pid =>
      if truthyStr productId then
        product ← product_findUnique (ge_findThrows env) pid;
        match product with
        | None =>
            mret (Some (mkResponse 404 (ErrorBody "Product not found" "PRODUCT_NOT_FOUND")))
        | Some p =>
            let canGenerate := adminOrOwner user (product_userId p) in
            if negb canGenerate then
              mret (Some (mkResponse 403
                (ErrorBody "You can only generate images for your own products"
                   "INSUFFICIENT_PERMISSIONS")))
            else mret None
        end
      else mret None
  | None => mret None
  end.

(** The row of [prisma.imageGeneration.create]: the fields of [data]; the
    optional columns start out null and [createdAt] is the clock. *)
Definition newGeneration (now : Time) (user : User) (prompt style format : string)
    (productId : option string) : ImageGeneration :=
  mkImageGeneration prompt style format PENDING (user_id user)
    (if truthyStr productId then productId else None) None None now None.

Definition setTimeout (t : Timer) : M unit :=
  modify (set_timers (λ ts, ts ++ [t])).

Definition generateImage (env : GenerateEnv) (req : GenerateRequest) : M Response :=
  tryCatch
    (match greq_user req with
     | None => respond 401 (ErrorBody "Authentication required" "NOT_AUTHENTICATED")
     | Some user =>
         let prompt := body_prompt (greq_body req) in
         let style := body_style (greq_body req) in
         let format := default "PNG" (body_format (greq_body req)) in
         let productId := body_productId (greq_body req) in
         answered ← validateProduct env user productId;
         match answered with
         | Some r => mret r
         | None =>
             let row := newGeneration (ge_now env) user prompt style format productId in
             i ← imageGeneration_create (ge_createThrows env) row;
             product ← gets (λ w, joinProduct w (ig_productId row));
             setTimeout (mkTimer i style);;
             respond 202 (GenerationStarted
               (mkGenerationSummary i prompt style format (ig_status row)
                  (ig_createdAt row) product))
         end
     end)
    (respond 500
       (ErrorBody "Internal server error while starting image generation" "INTERNAL_ERROR")).

(** ** The callback of the timer *)

Record TimerEnv := mkTimerEnv {
  te_now : Time;
  te_completeThrows : bool;
  te_failThrows : bool
}.

(** [data: { status: COMPLETED, imageUrl: mockImageUrl, completedAt: new Date() }] *)
Definition completedData (url : string) (now : Time) (g : ImageGeneration)
    : ImageGeneration :=
  mkImageGeneration (ig_prompt g) (ig_style g) (ig_format g) COMPLETED (ig_userId g)
    (ig_productId g) (Some url) (ig_errorMessage g) (ig_createdAt g) (Some now).

(** [data: { status: FAILED, errorMessage: 'Image generation failed' }] *)
Definition failedData (g : ImageGeneration) : ImageGeneration :=
  mkImageGeneration (ig_prompt g) (ig_style g) (ig_format g) FAILED (ig_userId g)
    (ig_productId g) (ig_imageUrl g) (Some "Image generation failed") (ig_createdAt g)
    (ig_completedAt g).

Definition mockImageUrl (style : string) : string :=
  "https://via.placeholder.com/512x512/4F46E5/FFFFFF?text=" +:+ encodeURIComponent style.

(** The body of the callback.  When the update of the [catch] block throws
    as well, the rejection is not handled and the computation is [Thrown]. *)
Definition generationCallback (env : TimerEnv) (t : Timer) : M unit :=
  tryCatch
    (imageGeneration_update (te_completeThrows env) (timer_job t)
       (completedData (mockImageUrl (timer_style t)) (te_now env)))
    (imageGeneration_update (te_failThrows env) (timer_job t) failedData).

(** ** [getImageGeneration] *)

Record GetRequest := mkGetRequest {
  get_user : option User;
  get_id : string
}.

(** [req.user?.role === UserRole.ADMIN || req.user?.id === ownerId] *)
Definition canAccessAs (user : option User) (ownerId : string) : bool :=
  match user with
  | Some u => adminOrOwner u ownerId
  | None => false
  end.

Definition getImageGeneration (findThrows : bool) (req : GetRequest) : M Response :=
  tryCatch
    (imageGeneration ← imageGeneration_findUnique findThrows (get_id req);
     match imageGeneration with
     | None =>
         respond 404 (ErrorBody "Image generation not found" "GENERATION_NOT_FOUND")
     | Some g =>
         let canAccess := canAccessAs (get_user req) (ig_userId g) in
         if negb canAccess then
           respond 403 (ErrorBody "You can only access your own image generations"
                          "INSUFFICIENT_PERMISSIONS")
         else
           product ← gets (λ w, joinProduct w (ig_productId g));
           respond 200 (GenerationRetrieved
             (mkGenerationView (get_id req) g (ig_userId g) product))
     end)
    (respond 500
       (ErrorBody "Internal server error while retrieving image generation"
          "INTERNAL_ERROR")).

(** ** [uploadProductImage] *)

Record UploadRequest := mkUploadRequest {
  ureq_user : option User;
  ureq_productId : string;
  ureq_altText : option string;
  ureq_isPrimary : option JsVal;
  (** [req.file]: the buffer of the uploaded file, if any *)
  ureq_file : option string
}.

(** What one call of [uploadProductImage] meets: the clock, the suffix drawn
    for the file name, whether [sharp] throws, the URL Cloudinary answers
    ([None] when the upload is rejected) and which database calls throw. *)
Record UploadEnv := mkUploadEnv {
  ue_now : Time;
  ue_findThrows : bool;
  ue_sharpThrows : bool;
  ue_secureUrl : option string;
  ue_updateThrows : bool;
  ue_createThrows : bool
}.

Definition external {A} (result : option A) : M A :=
  match result with
  | Some a => mret a
  | None => throw
  end.

Definition uploadProductImage (env : UploadEnv) (req : UploadRequest) : M Response :=
  tryCatch
    (match ureq_user req with
     | None => respond 401 (ErrorBody "Authentication required" "NOT_AUTHENTICATED")
     | Some user =>
         let productId := ureq_productId req in
         let altText := ureq_altText req in
         let isPrimary := ureq_isPrimary req in
         match ureq_file req with
         | None => respond 400 (ErrorBody "No image file provided" "NO_FILE_PROVIDED")
         | Some file =>
             product ← product_findUnique (ue_findThrows env) productId;
             match product with
             | None => respond 404 (ErrorBody "Product not found" "PRODUCT_NOT_FOUND")
             | Some p =>
                 let canUpload := adminOrOwner user (product_userId p) in
                 if negb canUpload then
                   respond 403 (ErrorBody "You can only upload images for your own products"
                                  "INSUFFICIENT_PERMISSIONS")
                 else
                   external (if ue_sharpThrows env then None else Some tt);;
                   imageUrl ← external (ue_secureUrl env);
                   (if truthy isPrimary
                    then productImage_unsetPrimary (ue_updateThrows env) productId
                    else mret tt);;
                   let alt := if truthyStr altText then default "" altText
                              else product_name p +:+ " product image" in
                   let row := mkProductImage productId imageUrl alt (truthy isPrimary)
                                (ue_now env) in
                   i ← productImage_create (ue_createThrows env) row;
                   respond 201 (ProductImageUploaded
                     (mkProductImageView i imageUrl alt (truthy isPrimary) (ue_now env)
                        (Some (productId, product_name p))))
             end
         end
     end)
    (respond 500 (ErrorBody "Internal server error while uploading image" "INTERNAL_ERROR")).

(** ** [deleteProductImage] *)

Record DeleteImageRequest := mkDeleteImageRequest {
  dreq_user : option User;
  dreq_productId : string;
  dreq_imageId : string
}.

Record DeleteImageEnv := mkDeleteImageEnv {
  de_findThrows : bool;
  de_deleteThrows : bool
}.

(** The failure of [cloudinary.uploader.destroy] is caught and logged, so the
    call leaves no trace in the model. *)
Definition deleteProductImage (env : DeleteImageEnv) (req : DeleteImageRequest)
    : M Response :=
  tryCatch
    (match dreq_user req with
     | None => respond 401 (ErrorBody "Authentication required" "NOT_AUTHENTICATED")
     | Some user =>
         image ← productImage_findUnique (de_findThrows env) (dreq_imageId req);
         match image with
         | None => respond 404 (ErrorBody "Product image not found" "IMAGE_NOT_FOUND")
         | Some img =>
             if negb (bool_decide (pi_productId img = dreq_productId req)) then
               respond 404 (ErrorBody "Product image not found" "IMAGE_NOT_FOUND")
             else
               product ← gets (λ w, products w !! pi_productId img);
               p ← external product;
               let canDelete := adminOrOwner user (product_userId p) in
               if negb canDelete then
                 respond 403 (ErrorBody "You can only delete images for your own products"
                                "INSUFFICIENT_PERMISSIONS")
               else
                 productImage_delete (de_deleteThrows env) (dreq_imageId req);;
                 respond 200 (MessageBody "Product image deleted successfully")
         end
     end)
    (respond 500 (ErrorBody "Internal server error while deleting image" "INTERNAL_ERROR")).

(** ** Transactions of the other controllers on these tables *)

(** The transaction of [deleteUser]: the generations of the user, the
    images of the user's products, the user's products. *)
Definition ownerOf (w : World) (productId : string) : option string :=
  product_userId <$> products w !! productId.

Definition deleteUserTransaction (id : string) (w : World) : World :=
  mkWorld
    (filter (λ kv, product_userId kv.2 ≠ id) (products w))
    (filter (λ kv, ownerOf w (pi_productId kv.2) ≠ Some id) (productImages w))
    (filter (λ kv, ig_userId kv.2 ≠ id) (imageGenerations w))
    (issued w) (timers w).

(** The transaction of [deleteProduct]: the images of the product, then the
    product. *)
Definition deleteProductTransaction (id : string) (w : World) : World :=
  mkWorld
    (delete id (products w))
    (filter (λ kv, pi_productId kv.2 ≠ id) (productImages w))
    (imageGenerations w) (issued w) (timers w).

(** ** The image router *)

Inductive Method := GET | POST | PUT | DELETE | PATCH.

Global Instance Method_eq_dec : EqDecision Method.
Proof. solve_decision. Defined.

(** A segment of a route's path: a literal or a parameter [:name]. *)
Inductive Segment :=
| Lit (s : string)
| Param (name : string).

Inductive Handler :=
| UploadProductImage
| GetProductImages
| DeleteProductImage
| GenerateImage
| GetImageGeneration
| GetUserImageGenerations.

(** The routes of the router, in the order of their registration; a path is
    the list of its segments below the mount point of the router. *)
Definition imageRoutes : list (Method * list Segment * Handler) :=
  [ (POST, [Lit "products"; Param "productId"; Lit "upload"], UploadProductImage);
    (GET, [Lit "products"; Param "productId"], GetProductImages);
    (DELETE, [Lit "products"; Param "productId"; Param "imageId"], DeleteProductImage);
    (POST, [Lit "generate"], GenerateImage);
    (GET, [Lit "generations"; Param "id"], GetImageGeneration);
    (GET, [Lit "generations"], GetUserImageGenerations) ].

Fixpoint matchPath (pattern : list Segment) (path : list string)
    : option (list (string * string)) :=
  match pattern, path with
  | [], [] => Some []
  | Lit s :: pattern', x :: path' =>
      if bool_decide (s = x) then matchPath pattern' path' else None
  | Param name :: pattern', x :: path' =>
      params ← matchPath pattern' path'; Some ((name, x) :: params)
  | _, _ => None
  end.

Fixpoint dispatch (routes : list (Method * list Segment * Handler)) (m : Method)
    (path : list string) : option (Handler * list (string * string)) :=
  match routes with
  | [] => None
  | (m', pattern, h) :: routes' =>
      if bool_decide (m' = m) then
        match matchPath pattern path with
        | Some params => Some (h, params)
        | None => dispatch routes' m path
        end
      else dispatch routes' m path
  end.

(** [notFoundHandler] followed by [errorHandler]: the answer to a request
    that no route takes. *)
Definition notFound (path : list string) : M Response :=
  respond 404 (RouteNotFoundBody path).

(** The router in front of its handlers: [handlers h params] is what the
    middlewares and the handler of a matched route do. *)
Definition imagesRouter (handlers : Handler → list (string * string) → M Response)
    (m : Method) (path : list string) : M Response :=
  match dispatch imageRoutes m path with
  | Some (h, params) => handlers h params
  | None => notFound path
  end.

(** ** The route [POST /generate] *)

(** What [authenticate] leaves: the user it attached to the request, or the
    error of the 401 it answered. *)
Inductive AuthResult :=
| Authenticated (user : User)
| Rejected (message error : string).

Definition postGenerate (env : GenerateEnv) (auth : AuthResult) (raw : RawBody)
    : M Response :=
  match auth with
  | Rejected message error => respond 401 (ErrorBody message error)
  | Authenticated user =>
      match generateImageSchema raw with
      | inl details => respond 400 (ValidationErrorBody details)
      | inr body => generateImage env (mkGenerateRequest (Some user) body)
      end
  end.

(** ** The system: requests, timers and transactions in any order *)

(** What happens to the world, one event at a time:
    - a request to [POST /generate], a timer that fires, a call of
      [getImageGeneration], [uploadProductImage] or [deleteProductImage];
    - the transaction of [deleteUser] or of [deleteProduct] (the checks
      before them only decide whether the transaction runs, so they are left
      out), and any other write of the product controller, which touches
      the products alone;
    - a request that no route takes;
    - the end of the process, which the handler of unhandled rejections
      brings about and which drops the pending timers.
    The handlers that only read ([getProductImages],
    [getUserImageGenerations]) change nothing and are left out. *)
Inductive Event :=
| PostGenerate (env : GenerateEnv) (auth : AuthResult) (raw : RawBody)
| TimerFires (env : TimerEnv) (job : string)
| GetGeneration (findThrows : bool) (req : GetRequest)
| Upload (env : UploadEnv) (req : UploadRequest)
| DeleteImage (env : DeleteImageEnv) (req : DeleteImageRequest)
| DeleteUser (id : string)
| DeleteProduct (id : string)
| ProductsWritten (table : gmap string Product)
| Unrouted (m : Method) (path : list string)
| ProcessExit.

(** The pending timer of a job, with its position. *)
Definition pendingTimer (job : string) (w : World) : option (nat * Timer) :=
  list_find (λ t, timer_job t = job) (timers w).

(** A pending timer fires: it leaves the list and its callback runs. *)
Definition fire (env : TimerEnv) (job : string) (w : World) : World :=
  match pendingTimer job w with
  | Some (i, t) => (generationCallback env t (set_timers (delete i) w)).2
  | None => w
  end.

Definition step (e : Event) (w : World) : World :=
  match e with
  | PostGenerate env auth raw => (postGenerate env auth raw w).2
  | TimerFires env job => fire env job w
  | GetGeneration findThrows req => (getImageGeneration findThrows req w).2
  | Upload env req => (uploadProductImage env req w).2
  | DeleteImage env req => (deleteProductImage env req w).2
  | DeleteUser id => deleteUserTransaction id w
  | DeleteProduct id => deleteProductTransaction id w
  | ProductsWritten table => set_products (λ _, table) w
  | Unrouted m path => (notFound path w).2
  | ProcessExit => set_timers (λ _, []) w
  end.

Definition run (es : list Event) (w : World) : World := foldl (λ w e, step e w) w es.

(** A world before any generation request. *)
Definition initial (w : World) : Prop :=
  imageGenerations w = ∅ ∧ productImages w = ∅ ∧ timers w = [].

Definition reachable (w : World) : Prop :=
  ∃ w0 es, initial w0 ∧ w = run es w0.

(** The jobs whose callback runs along a run, in order. *)
Definition callbackOf (e : Event) (w : World) : list string :=
  match e with
  | TimerFires _ job =>
      match pendingTimer job w with
      | Some _ => [job]
      | None => []
      end
  | _ => []
  end.

Fixpoint callbacks (es : list Event) (w : World) : list string :=
  match es with
  | [] => []
  | e :: es' => callbackOf e w ++ callbacks es' (step e w)
  end.

(** The number of times the generation of a job was attempted. *)
Definition attempts (job : string) (es : list Event) (w : World) : nat :=
  List.length (filter (λ j, j = job) (callbacks es w)).

(** * Properties *)

(** ** What a call of [generateImage] does *)

Ltac unfold_m :=
  unfold tryCatch, respond, external, dbCall, throw, gets, modify, setTimeout,
    generateId, mbind, M_bind, mret, M_ret, set_products, set_productImages,
    set_imageGenerations, set_issued, set_timers in *.

(** The world after an accepted submission and the answer to it. *)
Definition acceptedRow (env : GenerateEnv) (user : User) (body : GenerateBody)
    : ImageGeneration :=
  newGeneration (ge_now env) user (body_prompt body) (body_style body)
    (default "PNG" (body_format body)) (body_productId body).

Definition acceptedWorld (env : GenerateEnv) (user : User) (body : GenerateBody)
    (w : World) : World :=
  let i := fresh (issued w) in
  mkWorld (products w) (productImages w)
    (<[i := acceptedRow env user body]> (imageGenerations w))
    ({[i]} ∪ issued w)
    (timers w ++ [mkTimer i (body_style body)]).

Definition acceptedResponse (env : GenerateEnv) (user : User) (body : GenerateBody)
    (w : World) : Response :=
  let row := acceptedRow env user body in
  mkResponse 202 (GenerationStarted
    (mkGenerationSummary (fresh (issued w)) (body_prompt body) (body_style body)
       (default "PNG" (body_format body)) PENDING (ge_now env)
       (joinProduct w (ig_productId row)))).

(** The outcomes of the product check of a submission. *)
Inductive ProductCheck :=
| NoProduct
| ProductLookupThrows
| ProductMissing
| ProductForeign
| ProductUsable.

Definition productCheck (env : GenerateEnv) (user : User) (body : GenerateBody)
    (w : World) : ProductCheck :=
  match body_productId body with
  | None => NoProduct
  | Some pid =>
      if bool_decide (pid = "") then NoProduct
      else if ge_findThrows env then ProductLookupThrows
      else match products w !! pid with
           | None => ProductMissing
           | Some p =>
               if adminOrOwner user (product_userId p) then ProductUsable
               else ProductForeign
           end
  end.

Definition internalError : Response :=
  mkResponse 500
    (ErrorBody "Internal server error while starting image generation" "INTERNAL_ERROR").

Lemma generateImage_outcome env user body w :
  generateImage env (mkGenerateRequest (Some user) body) w =
  match productCheck env user body w with
  | ProductLookupThrows => (Returned internalError, w)
  | ProductMissing =>
      (Returned (mkResponse 404 (ErrorBody "Product not found" "PRODUCT_NOT_FOUND")), w)
  | ProductForeign =>
      (Returned (mkResponse 403
         (ErrorBody "You can only generate images for your own products"
            "INSUFFICIENT_PERMISSIONS")), w)
  | NoProduct | ProductUsable =>
      if ge_createThrows env then (Returned internalError, w)
      else (Returned (acceptedResponse env user body w), acceptedWorld env user body w)
  end.
Proof.
  unfold generateImage, validateProduct, productCheck, product_findUnique,
    imageGeneration_create, acceptedResponse, acceptedWorld, acceptedRow, internalError.
  unfold joinProduct, newGeneration, truthyStr.
  destruct body as [prompt style format [pid|]]; simpl.
  - case_bool_decide; simpl.
    + unfold_m; simpl. destruct (ge_createThrows env); reflexivity.
    + destruct (ge_findThrows env); unfold_m; simpl; [reflexivity|].
      destruct (products w !! pid) as [p|] eqn:Hp; simpl; [|reflexivity].
      destruct (adminOrOwner user (product_userId p)); simpl; [|reflexivity].
      destruct (ge_createThrows env); simpl; [reflexivity|].
      rewrite Hp. reflexivity.
  - unfold_m; simpl. destruct (ge_createThrows env); reflexivity.
Qed.

(** The four ways the callback of a timer ends. *)
Lemma generationCallback_cases env t w :
  generationCallback env t w =
  match imageGenerations w !! timer_job t with
  | None => (Thrown, w)
  | Some g =>
      if te_completeThrows env then
        if te_failThrows env then (Thrown, w)
        else (Returned tt, set_imageGenerations <[timer_job t := failedData g]> w)
      else
        (Returned tt,
         set_imageGenerations
           <[timer_job t := completedData (mockImageUrl (timer_style t)) (te_now env) g]>
           w)
  end.
Proof.
  unfold generationCallback, imageGeneration_update. unfold_m.
  destruct (te_completeThrows env), (te_failThrows env),
    (imageGenerations w !! timer_job t) eqn:Hg; simpl; rewrite ?Hg; reflexivity.
Qed.

Lemma generateImage_unauthenticated env body w :
  generateImage env (mkGenerateRequest None body) w =
  (Returned (mkResponse 401 (ErrorBody "Authentication required" "NOT_AUTHENTICATED")), w).
Proof. reflexivity. Qed.

(** ** What one event changes *)

(** The effect of an event on the generation records, on the timers and on
    the issued identifiers. *)
Inductive Effect (w w' : World) : Prop :=
| Shrinks :
    imageGenerations w' ⊆ imageGenerations w →
    timers w' `sublist_of` timers w →
    issued w ⊆ issued w' →
    Effect w w'
| Submitted row style :
    ig_status row = PENDING → ig_imageUrl row = None → ig_errorMessage row = None →
    imageGenerations w' = <[fresh (issued w) := row]> (imageGenerations w) →
    timers w' = timers w ++ [mkTimer (fresh (issued w)) style] →
    issued w' = {[fresh (issued w)]} ∪ issued w →
    Effect w w'
| Fired i t g data :
    timers w !! i = Some t →
    imageGenerations w !! timer_job t = Some g →
    (∃ url now, data = completedData url now) ∨ data = failedData →
    imageGenerations w' = <[timer_job t := data g]> (imageGenerations w) →
    timers w' = delete i (timers w) →
    issued w' = issued w →
    Effect w w'.

Lemma Effect_refl w : Effect w w.
Proof. by apply Shrinks. Qed.

Lemma postGenerate_effect env auth raw w : Effect w (postGenerate env auth raw w).2.
Proof.
  unfold postGenerate. destruct auth as [user|]; [|apply Effect_refl].
  destruct (generateImageSchema raw) as [details|body]; [apply Effect_refl|].
  rewrite generateImage_outcome.
  destruct (productCheck env user body w); try apply Effect_refl;
    (destruct (ge_createThrows env); [apply Effect_refl|]);
    by eapply (Submitted _ _ (acceptedRow env user body) (body_style body)).
Qed.

Lemma generationCallback_effect env i t w :
  timers w !! i = Some t →
  Effect w (generationCallback env t (set_timers (delete i) w)).2.
Proof.
  intros Ht. unfold generationCallback, imageGeneration_update. unfold_m. simpl.
  assert (Effect w (mkWorld (products w) (productImages w) (imageGenerations w)
                      (issued w) (delete i (timers w)))) as Hdrop.
  { apply Shrinks; simpl; [done|apply sublist_delete|done]. }
  destruct (imageGenerations w !! timer_job t) as [g|] eqn:Hg.
  - destruct (te_completeThrows env); simpl.
    + destruct (te_failThrows env); simpl; [exact Hdrop|].
      rewrite Hg. simpl. by eapply (Fired _ _ i t g failedData); eauto.
    + rewrite Hg. simpl.
      by eapply (Fired _ _ i t g (completedData _ _)); eauto.
  - destruct (te_completeThrows env); simpl.
    + destruct (te_failThrows env); simpl; [exact Hdrop|]. by rewrite Hg.
    + rewrite Hg. simpl. destruct (te_failThrows env); simpl; [exact Hdrop|].
      by rewrite Hg.
Qed.

Lemma fire_effect env job w : Effect w (fire env job w).
Proof.
  unfold fire. destruct (pendingTimer job w) as [[i t]|] eqn:Hp; [|apply Effect_refl].
  apply list_find_Some in Hp as (Ht & _ & _). by apply generationCallback_effect.
Qed.

Lemma getImageGeneration_readonly findThrows req w :
  (getImageGeneration findThrows req w).2 = w.
Proof.
  unfold getImageGeneration, imageGeneration_findUnique. unfold_m. simpl.
  destruct findThrows; simpl; [done|].
  destruct (imageGenerations w !! get_id req) as [g|]; simpl; [|done].
  by destruct (canAccessAs (get_user req) (ig_userId g)).
Qed.

(** Case analysis on the scrutinee of the first [match] of the goal. *)
Ltac case_scrutinee :=
  match goal with
  | |- context [match ?x with _ => _ end] =>
      lazymatch x with
      | context [match _ with _ => _ end] => fail
      | _ => destruct x eqn:?
      end
  end.

(** The image table after a stored upload. *)
Definition uploadedRow (env : UploadEnv) (req : UploadRequest) (p : Product) (url : string)
    : ProductImage :=
  mkProductImage (ureq_productId req) url
    (if truthyStr (ureq_altText req) then default "" (ureq_altText req)
     else product_name p +:+ " product image")
    (truthy (ureq_isPrimary req)) (ue_now env).

Definition imagesBeforeCreate (req : UploadRequest) (w : World)
    : gmap string ProductImage :=
  if truthy (ureq_isPrimary req)
  then demote (ureq_productId req) <$> productImages w
  else productImages w.

(** The three ways a call of [uploadProductImage] ends. *)
Inductive UploadOutcome (env : UploadEnv) (req : UploadRequest) (w : World)
    : Exc Response * World → Prop :=
| UploadRefused r :
    res_status r ≠ 201 → UploadOutcome env req w (Returned r, w)
| UploadLostAfterDemotion r :
    res_status r = 500 → truthy (ureq_isPrimary req) = true →
    UploadOutcome env req w
      (Returned r, set_productImages (fmap (demote (ureq_productId req))) w)
| UploadStored p url body :
    UploadOutcome env req w
      (Returned (mkResponse 201 body),
       mkWorld (products w)
         (<[fresh (issued w) := uploadedRow env req p url]> (imagesBeforeCreate req w))
         (imageGenerations w) ({[fresh (issued w)]} ∪ issued w) (timers w)).

Lemma uploadProductImage_outcome env req w :
  UploadOutcome env req w (uploadProductImage env req w).
Proof.
  unfold uploadProductImage, product_findUnique, productImage_unsetPrimary,
    productImage_create.
  unfold_m. simpl.
  destruct (ureq_user req) as [user|]; [|by apply UploadRefused].
  destruct (ureq_file req) as [file|]; [|by apply UploadRefused].
  destruct (ue_findThrows env); [by apply UploadRefused|]. simpl.
  destruct (products w !! ureq_productId req) as [p|]; [|by apply UploadRefused].
  destruct (adminOrOwner user (product_userId p)); simpl; [|by apply UploadRefused].
  destruct (ue_sharpThrows env); simpl; [by apply UploadRefused|].
  destruct (ue_secureUrl env) as [url|]; simpl; [|by apply UploadRefused].
  destruct (truthy (ureq_isPrimary req)) eqn:Hprimary; simpl.
  - destruct (ue_updateThrows env); simpl; [by apply UploadRefused|].
    destruct (ue_createThrows env); simpl; [by apply UploadLostAfterDemotion|].
    pose proof (UploadStored env req w p url) as Hs.
    unfold imagesBeforeCreate, uploadedRow in Hs. rewrite Hprimary in Hs. apply Hs.
  - destruct (ue_createThrows env); simpl; [by apply UploadRefused|].
    pose proof (UploadStored env req w p url) as Hs.
    unfold imagesBeforeCreate, uploadedRow in Hs. rewrite Hprimary in Hs. apply Hs.
Qed.

Lemma uploadProductImage_effect env req w : Effect w (uploadProductImage env req w).2.
Proof.
  destruct (uploadProductImage_outcome env req w); simpl;
    apply Shrinks; simpl; try done; set_solver.
Qed.

Lemma deleteProductImage_images env req w :
  (deleteProductImage env req w).2 = w ∨
  (deleteProductImage env req w).2 = set_productImages (delete (dreq_imageId req)) w.
Proof.
  unfold deleteProductImage, productImage_findUnique, productImage_delete.
  unfold_m. simpl.
  repeat (first [ left; reflexivity | right; reflexivity | case_scrutinee; simpl ]).
Qed.

Lemma deleteProductImage_effect env req w : Effect w (deleteProductImage env req w).2.
Proof.
  destruct (deleteProductImage_images env req w) as [-> | ->]; by apply Shrinks.
Qed.

Lemma step_effect e w : Effect w (step e w).
Proof.
  destruct e; simpl.
  - apply postGenerate_effect.
  - apply fire_effect.
  - rewrite getImageGeneration_readonly. apply Effect_refl.
  - apply uploadProductImage_effect.
  - apply deleteProductImage_effect.
  - apply Shrinks; simpl; [apply map_filter_subseteq|done|done].
  - by apply Shrinks.
  - by apply Shrinks.
  - apply Effect_refl.
  - apply Shrinks; simpl; [done|apply sublist_nil_l|done].
Qed.

(** ** The invariant of the job lifecycle *)

Definition timerJobs (w : World) : list string := timer_job <$> timers w.

(** A record agrees with its status; a finished job has no pending timer. *)
Definition jobOk (w : World) (id : string) (g : ImageGeneration) : Prop :=
  match ig_status g with
  | PENDING => ig_imageUrl g = None ∧ ig_errorMessage g = None
  | RUNNING => False
  | COMPLETED =>
      is_Some (ig_imageUrl g) ∧ ig_errorMessage g = None ∧ id ∉ timerJobs w
  | FAILED =>
      is_Some (ig_errorMessage g) ∧ ig_imageUrl g = None ∧ id ∉ timerJobs w
  end.

Record Lifecycle (w : World) : Prop := mkLifecycle {
  lc_jobs : ∀ id g, imageGenerations w !! id = Some g → jobOk w id g;
  lc_jobs_issued : ∀ id g, imageGenerations w !! id = Some g → id ∈ issued w;
  lc_timers_issued : ∀ id, id ∈ timerJobs w → id ∈ issued w;
  lc_timers_nodup : NoDup (timerJobs w)
}.

Lemma NoDup_delete_lookup {A} (l : list A) i x :
  NoDup l → l !! i = Some x → x ∉ delete i l.
Proof.
  intros Hnd Hi. rewrite delete_take_drop.
  rewrite <- (take_drop_middle l i x Hi) in Hnd.
  apply NoDup_app in Hnd as (_ & Hdisj & Hrest).
  apply NoDup_cons in Hrest as [Hx _].
  intros [Hin|Hin]%elem_of_app; [|done].
  apply (Hdisj x Hin). left.
Qed.

Lemma jobOk_fewer_timers w w' id g :
  (∀ j, j ∈ timerJobs w' → j ∈ timerJobs w) → jobOk w id g → jobOk w' id g.
Proof. unfold jobOk. destruct (ig_status g); naive_solver. Qed.

Lemma Lifecycle_initial w : initial w → Lifecycle w.
Proof.
  intros (Hg & _ & Ht). split; unfold timerJobs; rewrite ?Hg, ?Ht; simpl.
  - intros id g. by rewrite lookup_empty.
  - intros id g. by rewrite lookup_empty.
  - intros id. by rewrite elem_of_nil.
  - constructor.
Qed.

Lemma fresh_not_job w id g :
  Lifecycle w → imageGenerations w !! id = Some g → id ≠ fresh (issued w).
Proof.
  intros Hl Hg ->. apply (is_fresh (issued w)). by eapply lc_jobs_issued.
Qed.

Lemma fresh_not_timer w : Lifecycle w → fresh (issued w) ∉ timerJobs w.
Proof. intros Hl Hin. apply (is_fresh (issued w)). by apply lc_timers_issued. Qed.

Lemma pending_of_timer w id g :
  Lifecycle w → imageGenerations w !! id = Some g → id ∈ timerJobs w →
  ig_status g = PENDING ∧ ig_imageUrl g = None ∧ ig_errorMessage g = None.
Proof.
  intros Hl Hg Hin. pose proof (lc_jobs w Hl id g Hg) as Hok. unfold jobOk in Hok.
  destruct (ig_status g); naive_solver.
Qed.

Lemma Lifecycle_effect w w' : Lifecycle w → Effect w w' → Lifecycle w'.
Proof.
  intros Hl [Hgens Htimers Hissued | row style Hst Hurl Herr Hgens Htimers Hissued
            | i t g data Ht Hg Hdata Hgens Htimers Hissued].
  - assert (∀ j, j ∈ timerJobs w' → j ∈ timerJobs w) as Hsub.
    { intros j Hj. eapply elem_of_sublist; [exact Hj|]. unfold timerJobs.
      by apply fmap_sublist. }
    split.
    + intros id g Hg. eapply jobOk_fewer_timers; [exact Hsub|].
      eapply lc_jobs; [done|]. by eapply lookup_weaken.
    + intros id g Hg. apply Hissued. eapply lc_jobs_issued; [done|].
      by eapply lookup_weaken.
    + intros id Hid. apply Hissued, lc_timers_issued; auto.
    + eapply sublist_NoDup; [apply (lc_timers_nodup w Hl)|].
      unfold timerJobs. by apply fmap_sublist.
  - assert (timerJobs w' = timerJobs w ++ [fresh (issued w)]) as Htj.
    { unfold timerJobs. by rewrite Htimers, fmap_app. }
    split.
    + intros id g. rewrite Hgens, lookup_insert. case_decide as Hid.
      * intros [= <-]. unfold jobOk. by rewrite Hst.
      * intros Hg. pose proof (lc_jobs w Hl id g Hg) as Hok. unfold jobOk in *.
        rewrite Htj. destruct (ig_status g); try done;
          destruct Hok as (? & ? & Hnot); split_and!; try done;
          rewrite elem_of_app, list_elem_of_singleton; naive_solver.
    + intros id g. rewrite Hgens, Hissued, lookup_insert. case_decide as Hid.
      * intros _. set_solver.
      * intros Hg. apply elem_of_union_r. by eapply lc_jobs_issued.
    + intros id. rewrite Htj, Hissued, elem_of_app, list_elem_of_singleton.
      intros [Hin | ->]; [|set_solver]. apply elem_of_union_r.
      by apply lc_timers_issued.
    + rewrite Htj. apply NoDup_app. split_and!.
      * apply (lc_timers_nodup w Hl).
      * intros x Hx. rewrite list_elem_of_singleton. intros ->.
        by apply (fresh_not_timer w).
      * apply NoDup_singleton.
  - assert (timerJobs w' = delete i (timerJobs w)) as Htj.
    { unfold timerJobs. by rewrite Htimers, list_fmap_delete. }
    assert (timerJobs w !! i = Some (timer_job t)) as Hi.
    { unfold timerJobs. by rewrite list_lookup_fmap, Ht. }
    assert (timer_job t ∉ timerJobs w') as Hgone.
    { rewrite Htj. apply NoDup_delete_lookup; [apply (lc_timers_nodup w Hl)|done]. }
    assert (∀ j, j ∈ timerJobs w' → j ∈ timerJobs w) as Hsub.
    { intros j. rewrite Htj. apply list_elem_of_delete_inv. }
    destruct (pending_of_timer w (timer_job t) g Hl Hg) as (Hst & Hurl & Herr).
    { apply list_elem_of_lookup. eauto. }
    split.
    + intros id g'. rewrite Hgens, lookup_insert. case_decide as Hid.
      * intros [= <-]. subst id. unfold jobOk.
        destruct Hdata as [(url & now & ->) | ->]; simpl; eauto.
      * intros Hg'. eapply jobOk_fewer_timers; [exact Hsub|]. by eapply lc_jobs.
    + intros id g'. rewrite Hgens, Hissued, lookup_insert. case_decide as Hid.
      * intros _. subst id. by eapply lc_jobs_issued.
      * intros Hg'. by eapply lc_jobs_issued.
    + intros id Hid. rewrite Hissued. by apply lc_timers_issued, Hsub.
    + rewrite Htj. eapply sublist_NoDup; [apply (lc_timers_nodup w Hl)|].
      apply sublist_delete.
Qed.

Lemma Lifecycle_run es w : Lifecycle w → Lifecycle (run es w).
Proof.
  revert w. induction es as [|e es IH]; intros w Hl; [done|].
  simpl. apply IH. eapply Lifecycle_effect; [done|apply step_effect].
Qed.

Lemma Lifecycle_reachable w : reachable w → Lifecycle w.
Proof.
  intros (w0 & es & Hinit & ->). by apply Lifecycle_run, Lifecycle_initial.
Qed.

(** ** The edges of the status *)

(** The edges the specification lists. *)
Definition specEdge (s s' : GenerationStatus) : Prop :=
  (s = PENDING ∧ s' = RUNNING) ∨ (s = RUNNING ∧ s' = PENDING)
  ∨ (s = RUNNING ∧ s' = COMPLETED) ∨ (s = RUNNING ∧ s' = FAILED)
  ∨ (s = PENDING ∧ s' = FAILED).

(** The edges the timer callback takes. *)
Definition codeEdge (s s' : GenerationStatus) : Prop :=
  s = PENDING ∧ (s' = COMPLETED ∨ s' = FAILED).

(** Every event moves the status of every job along [edge] or not at all. *)
Definition movesAlong (edge : GenerationStatus → GenerationStatus → Prop) : Prop :=
  ∀ w e id g g',
    reachable w →
    imageGenerations w !! id = Some g →
    imageGenerations (step e w) !! id = Some g' →
    ig_status g' = ig_status g ∨ edge (ig_status g) (ig_status g').


Lemma record_step w e id g g' :
  Lifecycle w →
  imageGenerations w !! id = Some g →
  imageGenerations (step e w) !! id = Some g' →
  g' = g ∨ (ig_status g = PENDING ∧ (ig_status g' = COMPLETED ∨ ig_status g' = FAILED)).
Proof.
  intros Hl Hg Hg'.
  destruct (step_effect e w) as [Hgens _ _ | row style _ _ _ Hgens _ _
                                | i t g0 data Ht Hg0 Hdata Hgens _ _].
  - left. pose proof (lookup_weaken _ _ _ _ Hg' Hgens). congruence.
  - left. rewrite Hgens, lookup_insert_ne in Hg'; [congruence|].
    intros Heq. by apply (fresh_not_job w id g Hl Hg).
  - rewrite Hgens, lookup_insert in Hg'. case_decide as Hid; [|left; congruence].
    subst id. right. assert (g0 = g) as -> by congruence.
    destruct (pending_of_timer w (timer_job t) g Hl Hg) as (Hst & _).
    { apply list_elem_of_lookup. exists i. unfold timerJobs.
      by rewrite list_lookup_fmap, Ht. }
    split; [done|]. destruct Hdata as [(url & now & ->) | ->]; simplify_eq/=; auto.
Qed.

(** C1 (as amended).  In every reachable world, an event leaves the record
    of a job as it is or moves its status from [PENDING] to [COMPLETED] or
    from [PENDING] to [FAILED]: these two edges, written by the timer
    callback, are the only ones; the status never is or becomes [RUNNING],
    and a [COMPLETED] or [FAILED] record is never changed again. *)
Theorem status_moves_only_from_pending w e id g g' :
  reachable w →
  imageGenerations w !! id = Some g →
  imageGenerations (step e w) !! id = Some g' →
  (g' = g ∨ codeEdge (ig_status g) (ig_status g')) ∧
  ig_status g ≠ RUNNING ∧ ig_status g' ≠ RUNNING.
Proof.
  intros Hr Hg Hg'. pose proof (Lifecycle_reachable w Hr) as Hl.
  split; [by eapply record_step|].
  assert (Lifecycle (step e w)) as Hl'.
  { eapply Lifecycle_effect; [done|apply step_effect]. }
  pose proof (lc_jobs w Hl id g Hg) as Hok.
  pose proof (lc_jobs _ Hl' id g' Hg') as Hok'.
  unfold jobOk in *. split; intros Hs; by rewrite Hs in *.
Qed.

(** C2.  In every reachable world, a [COMPLETED] job has its [imageUrl] set
    and no [errorMessage], a [FAILED] job has its [errorMessage] set and no
    [imageUrl], and a [PENDING] or [RUNNING] job has neither. *)
Theorem result_and_error_agree_with_status w id g :
  reachable w →
  imageGenerations w !! id = Some g →
  (ig_status g = COMPLETED → is_Some (ig_imageUrl g) ∧ ig_errorMessage g = None) ∧
  (ig_status g = FAILED → is_Some (ig_errorMessage g) ∧ ig_imageUrl g = None) ∧
  (ig_status g = PENDING ∨ ig_status g = RUNNING →
   ig_imageUrl g = None ∧ ig_errorMessage g = None).
Proof.
  intros Hr Hg. pose proof (lc_jobs w (Lifecycle_reachable w Hr) id g Hg) as Hok.
  unfold jobOk in Hok. destruct (ig_status g); naive_solver.
Qed.


(** ** Submission *)

Lemma adminOrOwner_true user owner :
  adminOrOwner user owner = true ↔ user_role user = ADMIN ∨ user_id user = owner.
Proof.
  unfold adminOrOwner. rewrite orb_true_iff, !bool_decide_eq_true. done.
Qed.

Lemma adminOrOwner_false user owner :
  adminOrOwner user owner = false ↔ user_role user ≠ ADMIN ∧ user_id user ≠ owner.
Proof.
  unfold adminOrOwner. rewrite orb_false_iff, !bool_decide_eq_false. done.
Qed.

Lemma productCheck_cases env user body w :
  match productCheck env user body w with
  | NoProduct => body_productId body = None ∨ body_productId body = Some ""
  | ProductLookupThrows => ge_findThrows env = true
  | ProductMissing =>
      ∃ pid, body_productId body = Some pid ∧ products w !! pid = None
  | ProductForeign =>
      ∃ pid p, body_productId body = Some pid ∧ products w !! pid = Some p ∧
        user_role user ≠ ADMIN ∧ user_id user ≠ product_userId p
  | ProductUsable =>
      ∃ pid p, body_productId body = Some pid ∧ products w !! pid = Some p ∧
        (user_role user = ADMIN ∨ user_id user = product_userId p)
  end.
Proof.
  unfold productCheck. destruct (body_productId body) as [pid|]; [|by left].
  case_bool_decide as Hpid; [right; by subst|].
  destruct (ge_findThrows env); [done|].
  destruct (products w !! pid) as [p|] eqn:Hp; [|by exists pid].
  destruct (adminOrOwner user (product_userId p)) eqn:Hown.
  - apply adminOrOwner_true in Hown. by exists pid, p.
  - apply adminOrOwner_false in Hown as []. by exists pid, p.
Qed.

(** C4.  A submission of an authenticated caller that passes validation and
    whose product, when one is given, exists and is the caller's (or the
    caller is an administrator) creates a new record in state [PENDING] and
    is answered 202 with the new [id] and that state, when no database call
    throws. *)
Theorem valid_submission_is_accepted env user raw body w :
  generateImageSchema raw = inr body →
  (∀ pid, body_productId body = Some pid →
     ∃ p, products w !! pid = Some p ∧
       (user_role user = ADMIN ∨ user_id user = product_userId p)) →
  ge_findThrows env = false →
  ge_createThrows env = false →
  ∃ summary g w',
    postGenerate env (Authenticated user) raw w =
      (Returned (mkResponse 202 (GenerationStarted summary)), w') ∧
    gs_status summary = PENDING ∧
    (gs_id summary ∉ issued w) ∧
    imageGenerations w' = <[gs_id summary := g]> (imageGenerations w) ∧
    ig_status g = PENDING ∧
    ig_userId g = user_id user ∧
    ig_prompt g = body_prompt body ∧
    mkTimer (gs_id summary) (body_style body) ∈ timers w'.
Proof.
  intros Hvalid Hproduct Hfind Hcreate.
  exists (mkGenerationSummary (fresh (issued w)) (body_prompt body) (body_style body)
            (default "PNG" (body_format body)) PENDING (ge_now env)
            (joinProduct w (ig_productId (acceptedRow env user body)))),
    (acceptedRow env user body), (acceptedWorld env user body w).
  split_and!; try done.
  - unfold postGenerate. rewrite Hvalid, generateImage_outcome, Hcreate.
    pose proof (productCheck_cases env user body w) as Hc.
    destruct (productCheck env user body w); try done.
    + congruence.
    + destruct Hc as (pid & Hpid & Hnone).
      destruct (Hproduct pid Hpid) as (p & Hp & _). congruence.
    + destruct Hc as (pid & p & Hpid & Hp & Hrole & Hid).
      destruct (Hproduct pid Hpid) as (p' & Hp' & Hown). naive_solver.
  - simpl. apply is_fresh.
  - simpl. apply elem_of_app. right. by apply list_elem_of_singleton.
Qed.


(** C9 (as amended).  A record created with a [productId] belongs to the
    caller, and the referenced product existed at that moment and belonged
    to the caller too, unless the caller is an administrator, who may
    submit for any existing product.  A caller who is no administrator and
    names a product of someone else is answered 403 and no record is
    created. *)
Theorem job_owner_matches_product_owner_unless_admin env user raw w :
  (∀ r w',
     postGenerate env (Authenticated user) raw w = (Returned r, w') →
     res_status r = 202 →
     ∃ g, imageGenerations w' = <[fresh (issued w) := g]> (imageGenerations w) ∧
       ig_userId g = user_id user ∧
       ∀ pid, ig_productId g = Some pid →
         ∃ p, products w !! pid = Some p ∧
           (product_userId p = ig_userId g ∨ user_role user = ADMIN)) ∧
  (∀ body pid p,
     generateImageSchema raw = inr body →
     body_productId body = Some pid → pid ≠ "" →
     products w !! pid = Some p →
     product_userId p ≠ user_id user → user_role user ≠ ADMIN →
     ge_findThrows env = false →
     ∃ r, postGenerate env (Authenticated user) raw w = (Returned r, w) ∧
       res_status r = 403).
Proof.
  split.
  - intros r w'. unfold postGenerate.
    destruct (generateImageSchema raw) as [details|body]; simpl.
    { by intros [= <- <-]. }
    rewrite generateImage_outcome.
    pose proof (productCheck_cases env user body w) as Hc.
    destruct (productCheck env user body w); try by intros [= <- <-].
    + destruct (ge_createThrows env); [by intros [= <- <-]|].
      intros [= <- <-] _. exists (acceptedRow env user body).
      split_and!; try done. simpl. unfold truthyStr.
      destruct Hc as [-> | ->]; simpl; done.
    + destruct (ge_createThrows env); [by intros [= <- <-]|].
      intros [= <- <-] _. exists (acceptedRow env user body).
      split_and!; try done. simpl.
      destruct Hc as (pid & p & Hpid & Hp & Hown). rewrite Hpid.
      intros pid'. destruct (truthyStr (Some pid)); [|done].
      intros [= <-]. exists p. naive_solver.
  - intros body pid p Hvalid Hpid Hne Hp Howner Hrole Hfind.
    unfold postGenerate. rewrite Hvalid, generateImage_outcome.
    unfold productCheck. rewrite Hpid, Hfind, Hp.
    rewrite bool_decide_eq_false_2 by done.
    assert (adminOrOwner user (product_userId p) = false) as ->.
    { apply adminOrOwner_false. naive_solver. }
    eauto.
Qed.

(** ** Status query *)


(** ** Cancellation *)

(** C8 (as amended).  The image router has no route that cancels a job: a
    [DELETE] request on a path under [generations] is taken by no route and
    is answered 404 by the not-found handler, whatever the state of the job
    and whatever the handlers of the routes do, and it changes nothing. *)
Theorem delete_on_job_is_not_routed handlers path w :
  imagesRouter handlers DELETE ("generations" :: path) w =
  (Returned (mkResponse 404 (RouteNotFoundBody ("generations" :: path))), w).
Proof. reflexivity. Qed.

(** ** Attempts *)

(** The identifier was handed out and no timer is pending for it. *)
Definition settled (w : World) (id : string) : Prop :=
  id ∈ issued w ∧ id ∉ timerJobs w.

Lemma attempts_cons id e es w :
  attempts id (e :: es) w =
  List.length (filter (λ j, j = id) (callbackOf e w)) + attempts id es (step e w).
Proof. unfold attempts. simpl. by rewrite filter_app, length_app. Qed.

Lemma pendingTimer_Some job w i t :
  pendingTimer job w = Some (i, t) →
  timers w !! i = Some t ∧ timer_job t = job ∧ job ∈ timerJobs w.
Proof.
  intros (Ht & Hjob & _)%list_find_Some. split_and!; [done..|].
  apply list_elem_of_lookup. exists i. unfold timerJobs.
  by rewrite list_lookup_fmap, Ht, <- Hjob.
Qed.

Lemma generationCallback_frame env t w :
  timers (generationCallback env t w).2 = timers w ∧
  issued (generationCallback env t w).2 = issued w ∧
  productImages (generationCallback env t w).2 = productImages w.
Proof.
  unfold generationCallback, imageGeneration_update. unfold_m. simpl.
  destruct (te_completeThrows env), (te_failThrows env),
    (imageGenerations w !! timer_job t) eqn:Hg; simpl; rewrite ?Hg; simpl;
    split_and!; reflexivity.
Qed.

Lemma settled_effect w w' id : Lifecycle w → Effect w w' → settled w id → settled w' id.
Proof.
  intros Hl [Hgens Htimers Hissued | row style _ _ _ _ Htimers Hissued
            | i t g data _ _ _ _ Htimers Hissued] [Hin Hnot]; split.
  - by apply Hissued.
  - intros Hj. apply Hnot. eapply elem_of_sublist; [exact Hj|].
    unfold timerJobs. by apply fmap_sublist.
  - rewrite Hissued. set_solver.
  - unfold timerJobs. rewrite Htimers, fmap_app. simpl.
    rewrite elem_of_app, list_elem_of_singleton.
    intros [Hj | ->]; [done|]. by apply (is_fresh (issued w)).
  - by rewrite Hissued.
  - unfold timerJobs. rewrite Htimers, list_fmap_delete.
    intros Hj. apply Hnot. by eapply list_elem_of_delete_inv.
Qed.

Lemma fire_settles env job w i t :
  Lifecycle w → pendingTimer job w = Some (i, t) → settled (fire env job w) job.
Proof.
  intros Hl Hp. unfold fire. rewrite Hp.
  apply pendingTimer_Some in Hp as (Ht & <- & Hin).
  destruct (generationCallback_frame env t (set_timers (delete i) w)) as (Htim & Hiss & _).
  split.
  - rewrite Hiss. simpl. by apply lc_timers_issued.
  - unfold timerJobs. rewrite Htim. simpl. rewrite list_fmap_delete.
    apply NoDup_delete_lookup; [apply (lc_timers_nodup w Hl)|].
    by rewrite list_lookup_fmap, Ht.
Qed.

Lemma attempts_settled es : ∀ w id, Lifecycle w → settled w id → attempts id es w = 0.
Proof.
  induction es as [|e es IH]; intros w id Hl Hs; [done|].
  rewrite attempts_cons, IH.
  - assert (filter (λ j, j = id) (callbackOf e w) = []) as ->; [|done].
    destruct e; try done. simpl.
    destruct (pendingTimer job w) as [[i t]|] eqn:Hp; [|done].
    apply pendingTimer_Some in Hp as (_ & _ & Hin).
    rewrite filter_cons_False; [done|]. intros ->. by destruct Hs.
  - eapply Lifecycle_effect; [done|apply step_effect].
  - eapply settled_effect; [done|apply step_effect|done].
Qed.

Lemma attempts_at_most_one es : ∀ w id, Lifecycle w → (attempts id es w ≤ 1)%nat.
Proof.
  induction es as [|e es IH]; intros w id Hl; [unfold attempts; simpl; lia|].
  assert (Lifecycle (step e w)) as Hl'.
  { eapply Lifecycle_effect; [done|apply step_effect]. }
  rewrite attempts_cons.
  destruct e; try (simpl; apply (IH _ id Hl')).
  simpl callbackOf. destruct (pendingTimer job w) as [[i t]|] eqn:Hp.
  - destruct (decide (job = id)) as [->|Hne].
    + rewrite (attempts_settled es (step (TimerFires env id) w) id Hl').
      * rewrite filter_cons_True by done. simpl. lia.
      * simpl. by eapply fire_settles.
    + rewrite filter_cons_False by done. simpl. apply (IH _ id Hl').
  - simpl. apply (IH _ id Hl').
Qed.

(** C6 (as amended).  There is no attempt counter, no configured maximum
    and no retry: along every run the callback of a job runs at most once.
    When that one attempt fails (the first update throws, the second does
    not), the record becomes [FAILED] with the message of the callback, no
    timer is left for the job, and the generation is never attempted
    again. *)
Theorem one_attempt_per_job w0 es id :
  initial w0 →
  (attempts id es w0 ≤ 1)%nat ∧
  ∀ env g,
    is_Some (pendingTimer id (run es w0)) →
    imageGenerations (run es w0) !! id = Some g →
    te_completeThrows env = true → te_failThrows env = false →
    ∃ g', imageGenerations (fire env id (run es w0)) !! id = Some g' ∧
      ig_status g' = FAILED ∧
      ig_errorMessage g' = Some "Image generation failed" ∧
      pendingTimer id (fire env id (run es w0)) = None ∧
      ∀ es', attempts id es' (fire env id (run es w0)) = 0.
Proof.
  intros Hinit. pose proof (Lifecycle_initial w0 Hinit) as Hl0.
  split; [by apply attempts_at_most_one|].
  intros env g [[i t] Hp] Hg Hc Hf.
  pose proof (Lifecycle_run es w0 Hl0) as Hl.
  pose proof (fire_settles env id _ i t Hl Hp) as Hs.
  assert (Lifecycle (fire env id (run es w0))) as Hl'.
  { eapply Lifecycle_effect; [done|apply fire_effect]. }
  exists (failedData g). split_and!; try done.
  - unfold fire. rewrite Hp.
    apply pendingTimer_Some in Hp as (_ & <- & _).
    rewrite generationCallback_cases. simpl. rewrite Hg, Hc, Hf. simpl.
    apply lookup_insert_eq.
  - apply list_find_None, Forall_forall. intros t' Ht' Hjob.
    destruct Hs as [_ Hnot]. apply Hnot. unfold timerJobs.
    by eapply list_elem_of_fmap_2'.
  - intros es'. by apply attempts_settled.
Qed.

(** ** Primary images *)



Lemma demote_productId pid a : pi_productId (demote pid a) = pi_productId a.
Proof. unfold demote. by case_match. Qed.


Lemma demote_other pid a : pi_productId a ≠ pid → demote pid a = a.
Proof. intros Hne. unfold demote. by rewrite bool_decide_eq_false_2. Qed.








End ImagesApi.

(** * The claims on concrete runs *)

(** ** A shop, its users and their requests *)

(** A test of the usual shape of a UUID, to stand for Joi's test in the
    runs below: 36 characters, hyphens at 8, 13, 18 and 23, hexadecimal
    digits elsewhere. *)
Definition isHex (c : ascii) : bool :=
  let n := N_of_ascii c in
  (((48 <=? n) && (n <=? 57)) || ((65 <=? n) && (n <=? 70))
   || ((97 <=? n) && (n <=? 102)))%N.

Fixpoint uuidFrom (i : nat) (s : string) : bool :=
  match s with
  | EmptyString => bool_decide (i = 36)
  | String c r =>
      (if bool_decide (i ∈ [8; 13; 18; 23]) then bool_decide (c = "-"%char) else isHex c)
      && uuidFrom (S i) r
  end.

Definition uuidShape (s : string) : bool := uuidFrom 0 s.

Definition alice : User := mkUser "alice" TEAM_MEMBER.
Definition bob : User := mkUser "bob" TEAM_MEMBER.
Definition root : User := mkUser "root" ADMIN.

Definition lamp : string := "11111111-1111-4111-8111-111111111111".

(** Bob's lamp is the only product; nothing was uploaded or generated. *)
Definition shop : World :=
  mkWorld {[ lamp := mkProduct "bob" "Lamp" ]} ∅ ∅ ∅ [].

Definition plainRequest : RawBody :=
  mkRawBody (Some (JsString "  a red lamp ")) None None None.

Definition lampRequest : RawBody :=
  mkRawBody (Some (JsString "a red lamp")) (Some (JsString "CARTOON")) None
    (Some (JsString lamp)).

Definition calm : GenerateEnv := mkGenerateEnv 10 false false.
Definition succeeding : TimerEnv := mkTimerEnv 20 false false.
Definition failing : TimerEnv := mkTimerEnv 20 true false.

Definition submitted : list Event := [PostGenerate calm (Authenticated alice) plainRequest].

(** Alice's job, pending, completed and failed. *)
Definition pendingJob : ImageGeneration :=
  mkImageGeneration "a red lamp" "REALISTIC" "SQUARE" PENDING "alice" None None None 10
    None.

Definition completedJob : ImageGeneration :=
  completedData (mockImageUrl "REALISTIC") 20 pendingJob.

Definition failedJob : ImageGeneration := failedData pendingJob.

Definition afterSubmission : World := run uuidShape submitted shop.

Definition afterSuccess : World :=
  run uuidShape (submitted ++ [TimerFires succeeding "0"]) shop.

Definition afterFailure : World :=
  run uuidShape (submitted ++ [TimerFires failing "0"]) shop.

Lemma shop_initial : initial shop.
Proof. repeat split. Qed.

Lemma afterSubmission_job : imageGenerations afterSubmission !! "0" = Some pendingJob.
Proof. vm_compute. reflexivity. Qed.

Lemma afterSuccess_job : imageGenerations afterSuccess !! "0" = Some completedJob.
Proof. vm_compute. reflexivity. Qed.

Lemma afterFailure_job : imageGenerations afterFailure !! "0" = Some failedJob.
Proof. vm_compute. reflexivity. Qed.


(** ** C1 *)

(** C1, counterexample.  Alice's job is [PENDING] after her submission and
    [COMPLETED] after its timer fired: the move from [PENDING] to
    [COMPLETED] is none of the edges the specification lists. *)
Lemma status_leaves_spec_edges : ¬ movesAlong uuidShape specEdge.
Proof.
  intros Hclaim.
  destruct (Hclaim afterSubmission (TimerFires succeeding "0") "0" pendingJob
              completedJob) as [Heq | Hedge].
  - exists shop, submitted. split; [apply shop_initial|reflexivity].
  - apply afterSubmission_job.
  - vm_compute. reflexivity.
  - discriminate Heq.
  - unfold specEdge in Hedge. simpl in Hedge.
    destruct Hedge as [[_ H]|[[H _]|[[H _]|[[H _]|[_ H]]]]]; discriminate H.
Qed.

Lemma status_moves_only_from_pending_witness :
  (completedJob = pendingJob ∨
   codeEdge (ig_status pendingJob) (ig_status completedJob)) ∧
  ig_status pendingJob ≠ RUNNING ∧ ig_status completedJob ≠ RUNNING.
Proof.
  apply (status_moves_only_from_pending uuidShape afterSubmission
           (TimerFires succeeding "0") "0").
  - exists shop, submitted. split; [repeat split|reflexivity].
  - vm_compute. reflexivity.
  - vm_compute. reflexivity.
Defined.

(** ** C2 *)

Lemma result_and_error_agree_with_status_witness :
  (ig_status failedJob = COMPLETED →
   is_Some (ig_imageUrl failedJob) ∧ ig_errorMessage failedJob = None) ∧
  (ig_status failedJob = FAILED →
   is_Some (ig_errorMessage failedJob) ∧ ig_imageUrl failedJob = None) ∧
  (ig_status failedJob = PENDING ∨ ig_status failedJob = RUNNING →
   ig_imageUrl failedJob = None ∧ ig_errorMessage failedJob = None).
Proof.
  apply (result_and_error_agree_with_status uuidShape afterFailure "0").
  - exists shop, (submitted ++ [TimerFires failing "0"]).
    split; [repeat split|reflexivity].
  - vm_compute. reflexivity.
Defined.

(** ** C3 *)



(** ** C4 *)

Lemma valid_submission_is_accepted_witness :
  ∃ summary g w',
    postGenerate uuidShape calm (Authenticated bob) lampRequest shop =
      (Returned (mkResponse 202 (GenerationStarted summary)), w') ∧
    gs_status summary = PENDING ∧
    (gs_id summary ∉ issued shop) ∧
    imageGenerations w' = <[gs_id summary := g]> (imageGenerations shop) ∧
    ig_status g = PENDING ∧
    ig_userId g = user_id bob ∧
    ig_prompt g = "a red lamp" ∧
    mkTimer (gs_id summary) "CARTOON" ∈ timers w'.
Proof.
  apply (valid_submission_is_accepted uuidShape calm bob lampRequest
           (mkGenerateBody "a red lamp" "CARTOON" (Some "SQUARE") (Some lamp)) shop).
  - vm_compute. reflexivity.
  - intros pid [= <-]. exists (mkProduct "bob" "Lamp"). split.
    + vm_compute. reflexivity.
    + right. reflexivity.
  - reflexivity.
  - reflexivity.
Defined.

(** ** C5 *)


(** ** C6 *)

(** The claim: whatever the maximum is (at least one attempt), the attempts
    of a job never exceed it, and a job that failed on its last attempt
    carries the cause [RETRIES_EXHAUSTED]. *)
Definition retriesExhaustedClaim (isUuid : string → bool) : Prop :=
  ∀ maxAttempts w0 es id,
    (1 ≤ maxAttempts)%nat →
    initial w0 →
    (attempts isUuid id es w0 ≤ maxAttempts)%nat ∧
    ∀ g, attempts isUuid id es w0 = maxAttempts →
         imageGenerations (run isUuid es w0) !! id = Some g →
         ig_status g = FAILED →
         ig_errorMessage g = Some "RETRIES_EXHAUSTED".

(** C6, counterexample.  The code makes one attempt per job.  With one as
    the maximum, Alice's job has failed on its last attempt, and its cause
    is the message of the callback, not [RETRIES_EXHAUSTED]. *)
Lemma failure_cause_is_not_retries_exhausted : ¬ retriesExhaustedClaim uuidShape.
Proof.
  intros Hclaim.
  destruct (Hclaim 1 shop (submitted ++ [TimerFires failing "0"]) "0" (le_n 1)
              shop_initial) as [_ Hcause].
  specialize (Hcause failedJob).
  assert (ig_errorMessage failedJob = Some "RETRIES_EXHAUSTED") as Hmessage.
  { apply Hcause.
    - vm_compute. reflexivity.
    - apply afterFailure_job.
    - reflexivity. }
  discriminate Hmessage.
Qed.

Lemma one_attempt_per_job_witness :
  (attempts uuidShape "0" submitted shop ≤ 1)%nat ∧
  ∃ g', imageGenerations (fire failing "0" (run uuidShape submitted shop)) !! "0"
        = Some g' ∧
    ig_status g' = FAILED ∧
    ig_errorMessage g' = Some "Image generation failed" ∧
    pendingTimer "0" (fire failing "0" (run uuidShape submitted shop)) = None ∧
    ∀ es', attempts uuidShape "0" es' (fire failing "0" (run uuidShape submitted shop))
           = 0.
Proof.
  destruct (one_attempt_per_job uuidShape shop submitted "0") as [Hbound Hfails].
  - repeat split.
  - split; [exact Hbound|]. apply (Hfails failing pendingJob).
    + exists (0, mkTimer "0" "REALISTIC"). vm_compute. reflexivity.
    + vm_compute. reflexivity.
    + reflexivity.
    + reflexivity.
Defined.

(** ** C7 *)




(** ** C8 *)

(** The claim: a [DELETE] on a job is answered 200 and fails the job when
    the job is [PENDING], and is answered 409 and changes nothing when the
    job is [COMPLETED] or [FAILED]. *)
Definition cancelClaim : Prop :=
  ∀ handlers w id g,
    imageGenerations w !! id = Some g →
    ∃ r w',
      imagesRouter handlers DELETE ["generations"; id] w = (Returned r, w') ∧
      (ig_status g = PENDING →
       res_status r = 200 ∧
       ∃ g', imageGenerations w' !! id = Some g' ∧ ig_status g' = FAILED ∧
         ig_errorMessage g' = Some "CANCELLED") ∧
      (ig_status g = COMPLETED ∨ ig_status g = FAILED →
       res_status r = 409 ∧ w' = w).

(** C8, counterexample.  A [DELETE] on Alice's pending job is answered 404
    and the job stays [PENDING]. *)
Lemma delete_on_pending_job_is_not_found : ¬ cancelClaim.
Proof.
  intros Hclaim.
  destruct (Hclaim (λ _ _, notFound []) afterSubmission "0" pendingJob
              afterSubmission_job) as (r & w' & Hcall & Hpending & _).
  destruct (Hpending eq_refl) as [Hstatus _].
  injection Hcall as <- <-. discriminate Hstatus.
Qed.

(** ** C9 *)

(** The claim: the owner of a record created with a [productId] is the
    owner of the product. *)
Definition jobOwnerIsProductOwner (isUuid : string → bool) : Prop :=
  ∀ env user raw w r w' id g pid p,
    postGenerate isUuid env (Authenticated user) raw w = (Returned r, w') →
    res_status r = 202 →
    imageGenerations w !! id = None →
    imageGenerations w' !! id = Some g →
    ig_productId g = Some pid →
    products w !! pid = Some p →
    ig_userId g = product_userId p.

Definition rootsJob : ImageGeneration :=
  mkImageGeneration "a red lamp" "CARTOON" "SQUARE" PENDING "root" (Some lamp) None None
    10 None.

(** C9, counterexample.  The administrator's submission for Bob's lamp is
    accepted, and the record belongs to the administrator. *)
Lemma admin_job_for_foreign_product : ¬ jobOwnerIsProductOwner uuidShape.
Proof.
  intros Hclaim.
  assert (ig_userId rootsJob = product_userId (mkProduct "bob" "Lamp")) as Howner.
  { eapply (Hclaim calm root lampRequest shop _ _ "0" rootsJob lamp).
    - vm_compute. reflexivity.
    - reflexivity.
    - reflexivity.
    - vm_compute. reflexivity.
    - reflexivity.
    - vm_compute. reflexivity. }
  discriminate Howner.
Qed.

Lemma job_owner_matches_product_owner_unless_admin_witness :
  ∃ r, postGenerate uuidShape calm (Authenticated alice) lampRequest shop
       = (Returned r, shop) ∧ res_status r = 403.
Proof.
  apply (proj2 (job_owner_matches_product_owner_unless_admin uuidShape calm alice
                  lampRequest shop)
           (mkGenerateBody "a red lamp" "CARTOON" (Some "SQUARE") (Some lamp)) lamp
           (mkProduct "bob" "Lamp")).
  - vm_compute. reflexivity.
  - reflexivity.
  - discriminate.
  - vm_compute. reflexivity.
  - discriminate.
  - discriminate.
  - reflexivity.
Defined.

(** ** C10 *)

Definition bobsUpload (isPrimary : option JsVal) : UploadRequest :=
  mkUploadRequest (Some bob) lamp None isPrimary (Some "bytes").

Definition stored (url : string) : UploadEnv :=
  mkUploadEnv 30 false false (Some url) false false.

(** Bob has uploaded a primary image of the lamp. *)
Definition withPrimary : World :=
  run uuidShape [Upload (stored "https://cdn/1") (bobsUpload (Some (JsString "true")))]
    shop.




(** * The rest of the image controller and the code around it

    Further properties of the lifecycle and of the handlers above; then the
    handlers [getProductImages] and [getUserImageGenerations], the public
    id of [deleteProductImage], what [generateImageSchema] guarantees, the
    authentication middleware of [middleware/auth.ts] with
    [extractTokenFromHeader] of the JWT utilities, the routes of the image
    router, the upload middleware and the rules of [utils/password.ts],
    each with the properties that the code shows of it. *)

From stdpp Require Import sorting.
From Stdlib Require Import Lia.

(** * Further properties of the job lifecycle *)

Section Lifetime.

Variable isUuid : string → bool.

(** The fields of a record that the submission fixed. *)
Definition sameRequest (g g' : ImageGeneration) : Prop :=
  ig_prompt g' = ig_prompt g ∧ ig_style g' = ig_style g ∧ ig_format g' = ig_format g ∧
  ig_userId g' = ig_userId g ∧ ig_productId g' = ig_productId g ∧
  ig_createdAt g' = ig_createdAt g.

Lemma Lifecycle_step e w : Lifecycle w → Lifecycle (step isUuid e w).
Proof. intros Hl. eapply (Lifecycle_effect isUuid); [done|apply step_effect]. Qed.

Lemma Effect_issued w w' : Effect w w' → issued w ⊆ issued w'.
Proof.
  intros [_ _ Hi | row style _ _ _ _ _ Hi | i t g data _ _ _ _ _ Hi]; [done|..];
    rewrite Hi; set_solver.
Qed.

(** A deleted record does not come back: its [id] is never issued again. *)
Lemma absent_step e w id :
  Lifecycle w → id ∈ issued w → imageGenerations w !! id = None →
  imageGenerations (step isUuid e w) !! id = None.
Proof.
  intros Hl Hin Hnone.
  destruct (step_effect isUuid e w) as [Hgens _ _ | row style _ _ _ Hgens _ _
                                       | i t g data _ Hg _ Hgens _ _].
  - by eapply lookup_weaken_None.
  - rewrite Hgens, lookup_insert_ne; [done|]. intros <-.
    by apply (is_fresh (issued w)).
  - rewrite Hgens, lookup_insert_ne; [done|]. congruence.
Qed.

Lemma absent_run es : ∀ w id,
  Lifecycle w → id ∈ issued w → imageGenerations w !! id = None →
  imageGenerations (run isUuid es w) !! id = None.
Proof.
  induction es as [|e es IH]; intros w id Hl Hin Hnone; [done|].
  simpl. apply IH.
  - by apply Lifecycle_step.
  - eapply elem_of_weaken; [exact Hin|apply Effect_issued, step_effect].
  - by apply absent_step.
Qed.

Lemma sameRequest_step e w id g g' :
  Lifecycle w →
  imageGenerations w !! id = Some g →
  imageGenerations (step isUuid e w) !! id = Some g' →
  sameRequest g g'.
Proof.
  intros Hl Hg Hg'.
  destruct (step_effect isUuid e w) as [Hgens _ _ | row style _ _ _ Hgens _ _
                                       | i t g0 data _ Hg0 Hdata Hgens _ _].
  - pose proof (lookup_weaken _ _ _ _ Hg' Hgens). by simplify_eq.
  - rewrite Hgens, lookup_insert_ne in Hg'; [by simplify_eq|].
    intros Heq. by apply (fresh_not_job w id g Hl Hg).
  - rewrite Hgens, lookup_insert in Hg'. case_decide; [|by simplify_eq].
    simplify_eq. by destruct Hdata as [(url & now & ->) | ->].
Qed.

Lemma unwatched_step e w id g g' :
  Lifecycle w →
  imageGenerations w !! id = Some g → id ∉ timerJobs w →
  imageGenerations (step isUuid e w) !! id = Some g' →
  g' = g.
Proof.
  intros Hl Hg Hnot Hg'.
  destruct (step_effect isUuid e w) as [Hgens _ _ | row style _ _ _ Hgens _ _
                                       | i t g0 data Ht Hg0 _ Hgens _ _].
  - pose proof (lookup_weaken _ _ _ _ Hg' Hgens). by simplify_eq.
  - rewrite Hgens, lookup_insert_ne in Hg'; [by simplify_eq|].
    intros Heq. by apply (fresh_not_job w id g Hl Hg).
  - rewrite Hgens, lookup_insert_ne in Hg'; [by simplify_eq|].
    intros <-. apply Hnot, list_elem_of_lookup. exists i. unfold timerJobs.
    by rewrite list_lookup_fmap, Ht.
Qed.

Lemma sameRequest_run es : ∀ w id g g',
  Lifecycle w →
  imageGenerations w !! id = Some g →
  imageGenerations (run isUuid es w) !! id = Some g' →
  sameRequest g g'.
Proof.
  induction es as [|e es IH]; intros w id g g' Hl Hg Hg'.
  { simpl in Hg'. by simplify_eq. }
  simpl in Hg'. pose proof (Lifecycle_step e w Hl) as Hl'.
  destruct (imageGenerations (step isUuid e w) !! id) as [g1|] eqn:Hg1.
  - pose proof (sameRequest_step e w id g g1 Hl Hg Hg1) as Hs1.
    pose proof (IH _ id g1 g' Hl' Hg1 Hg') as Hs2.
    destruct Hs1 as (?&?&?&?&?&?), Hs2 as (?&?&?&?&?&?).
    unfold sameRequest. split_and!; congruence.
  - rewrite (absent_run es _ id Hl') in Hg'; [done| |done].
    apply (elem_of_weaken id (issued w)); [by eapply lc_jobs_issued|].
    apply Effect_issued, step_effect.
Qed.

Lemma unwatched_run es : ∀ w id g g',
  Lifecycle w →
  imageGenerations w !! id = Some g → id ∉ timerJobs w →
  imageGenerations (run isUuid es w) !! id = Some g' →
  g' = g.
Proof.
  induction es as [|e es IH]; intros w id g g' Hl Hg Hnot Hg'.
  { simpl in Hg'. by simplify_eq. }
  simpl in Hg'. pose proof (Lifecycle_step e w Hl) as Hl'.
  assert (settled (step isUuid e w) id) as [Hin' Hnot'].
  { apply (settled_effect isUuid w); [done|apply step_effect|].
    split; [by eapply lc_jobs_issued|done]. }
  destruct (imageGenerations (step isUuid e w) !! id) as [g1|] eqn:Hg1.
  - assert (g1 = g) as -> by by apply (unwatched_step e w id g g1).
    by apply (IH (step isUuid e w) id g g').
  - by rewrite (absent_run es _ id Hl') in Hg'.
Qed.

(** X1.  Along every run, the prompt, the style, the format, the owner,
    the product and the creation time of a job stay what the submission
    made them: the writes of the timer callback touch none of them. *)
Theorem job_request_is_immutable w es id g g' :
  reachable isUuid w →
  imageGenerations w !! id = Some g →
  imageGenerations (run isUuid es w) !! id = Some g' →
  ig_prompt g' = ig_prompt g ∧ ig_style g' = ig_style g ∧ ig_format g' = ig_format g ∧
  ig_userId g' = ig_userId g ∧ ig_productId g' = ig_productId g ∧
  ig_createdAt g' = ig_createdAt g.
Proof.
  intros Hr. apply sameRequest_run. by apply (Lifecycle_reachable isUuid).
Qed.

(** X2.  A job without a pending timer is never written again, whatever
    happens afterwards.  So a [COMPLETED] or [FAILED] job is final, and a
    [PENDING] job whose timer was lost, which is what the end of the process
    does to every pending timer, stays [PENDING] for good. *)
Theorem job_without_timer_is_frozen w es id g g' :
  reachable isUuid w →
  imageGenerations w !! id = Some g →
  id ∉ timerJobs w →
  imageGenerations (run isUuid es w) !! id = Some g' →
  g' = g.
Proof.
  intros Hr. apply unwatched_run. by apply (Lifecycle_reachable isUuid).
Qed.

(** What an accepted submission leaves behind. *)
Lemma postGenerate_accepted env user raw w r w' :
  postGenerate isUuid env (Authenticated user) raw w = (Returned r, w') →
  res_status r = 202 →
  ∃ body, generateImageSchema isUuid raw = inr body ∧
    r = acceptedResponse env user body w ∧ w' = acceptedWorld env user body w.
Proof.
  unfold postGenerate.
  destruct (generateImageSchema isUuid raw) as [details|body]; simpl.
  { by intros [= <- <-]. }
  rewrite generateImage_outcome. intros Hcall Hstatus. exists body.
  destruct (productCheck env user body w), (ge_createThrows env);
    simplify_eq/=; done.
Qed.

Lemma adminOrOwner_self user : adminOrOwner user (user_id user) = true.
Proof. unfold adminOrOwner. rewrite (bool_decide_eq_true_2 (_ = user_id _)); [|done].
  apply orb_true_r. Qed.

(** X3.  A job that a submission has just created can be read back by its
    creator: [getImageGeneration] answers 200 with a [PENDING] record that
    carries the prompt, style, format and creation time of the answer to
    the submission.  Another caller who is no administrator is answered
    403 for the same job. *)
Theorem new_job_is_readable_by_its_creator env user raw w r w' :
  postGenerate isUuid env (Authenticated user) raw w = (Returned r, w') →
  res_status r = 202 →
  ∃ summary g,
    res_body r = GenerationStarted summary ∧
    (getImageGeneration false (mkGetRequest (Some user) (gs_id summary)) w').1 =
      Returned (mkResponse 200 (GenerationRetrieved
        (mkGenerationView (gs_id summary) g (user_id user) (gs_product summary)))) ∧
    ig_status g = PENDING ∧ gs_status summary = PENDING ∧
    ig_prompt g = gs_prompt summary ∧ ig_style g = gs_style summary ∧
    ig_format g = gs_format summary ∧ ig_createdAt g = gs_createdAt summary ∧
    ∀ other, user_role other ≠ ADMIN → user_id other ≠ user_id user →
      ∃ r', (getImageGeneration false (mkGetRequest (Some other) (gs_id summary)) w').1
            = Returned r' ∧ res_status r' = 403.
Proof.
  intros Hcall Hstatus.
  destruct (postGenerate_accepted env user raw w r w' Hcall Hstatus)
    as (body & _ & -> & ->).
  eexists _, (acceptedRow env user body). split; [reflexivity|].
  split_and!; try reflexivity.
  - unfold getImageGeneration, imageGeneration_findUnique, tryCatch, respond, dbCall,
      gets, mbind, M_bind, mret, M_ret. simpl.
    rewrite lookup_insert_eq. simpl. by rewrite adminOrOwner_self.
  - intros other Hrole Hid.
    unfold getImageGeneration, imageGeneration_findUnique, tryCatch, respond, dbCall,
      gets, mbind, M_bind, mret, M_ret. simpl.
    rewrite lookup_insert_eq. simpl.
    assert (adminOrOwner other (user_id user) = false) as ->.
    { unfold adminOrOwner. by rewrite !bool_decide_eq_false_2. }
    simpl. eauto.
Qed.

Lemma pendingTimer_accepted env user body w :
  Lifecycle w →
  pendingTimer (fresh (issued w)) (acceptedWorld env user body w)
  = Some (List.length (timers w), mkTimer (fresh (issued w)) (body_style body)).
Proof.
  intros Hl. unfold pendingTimer, acceptedWorld. simpl. rewrite list_find_app_r.
  - simpl. rewrite decide_True by done. reflexivity.
  - apply list_find_None, Forall_forall. intros t' Hin Hjob.
    apply (fresh_not_timer w Hl). unfold timerJobs.
    by eapply list_elem_of_fmap_2'.
Qed.

(** X4.  When the timer of a job that was just accepted fires and the
    update does not throw, that job becomes [COMPLETED] with the placeholder
    URL of its style and the time of the callback, every other record stays
    as it was, and the timers are those from before the submission. *)
Theorem timer_completes_its_job_only env tenv user raw body w r w' :
  reachable isUuid w →
  generateImageSchema isUuid raw = inr body →
  postGenerate isUuid env (Authenticated user) raw w = (Returned r, w') →
  res_status r = 202 →
  te_completeThrows tenv = false →
  ∃ g, imageGenerations w' !! fresh (issued w) = Some g ∧
    ig_status g = PENDING ∧
    imageGenerations (fire tenv (fresh (issued w)) w') =
      <[fresh (issued w) :=
          completedData (mockImageUrl (body_style body)) (te_now tenv) g]>
        (imageGenerations w') ∧
    timers (fire tenv (fresh (issued w)) w') = timers w.
Proof.
  intros Hr Hvalid Hcall Hstatus Hok.
  destruct (postGenerate_accepted env user raw w r w' Hcall Hstatus)
    as (body' & Hvalid' & -> & ->).
  assert (body' = body) as -> by congruence.
  exists (acceptedRow env user body). split_and!.
  - simpl. apply lookup_insert_eq.
  - reflexivity.
  - unfold fire. rewrite pendingTimer_accepted
      by by apply (Lifecycle_reachable isUuid).
    rewrite generationCallback_cases. simpl. by rewrite lookup_insert_eq, Hok.
  - unfold fire. rewrite pendingTimer_accepted
      by by apply (Lifecycle_reachable isUuid).
    rewrite generationCallback_cases. simpl. rewrite lookup_insert_eq, Hok. simpl.
    rewrite (delete_middle (timers w) []). apply app_nil_r.
Qed.

End Lifetime.

(** ** On the run of Alice's submission *)

Definition alicesAnswer : Response :=
  mkResponse 202 (GenerationStarted
    (mkGenerationSummary "0" "a red lamp" "REALISTIC" "SQUARE" PENDING 10 None)).

Lemma alices_submission :
  postGenerate uuidShape calm (Authenticated alice) plainRequest shop
  = (Returned alicesAnswer, afterSubmission).
Proof. vm_compute. reflexivity. Qed.

Lemma job_request_is_immutable_witness :
  ig_prompt completedJob = ig_prompt pendingJob ∧
  ig_style completedJob = ig_style pendingJob ∧
  ig_format completedJob = ig_format pendingJob ∧
  ig_userId completedJob = ig_userId pendingJob ∧
  ig_productId completedJob = ig_productId pendingJob ∧
  ig_createdAt completedJob = ig_createdAt pendingJob.
Proof.
  apply (job_request_is_immutable uuidShape afterSubmission
           [TimerFires succeeding "0"] "0").
  - exists shop, submitted. split; [repeat split|reflexivity].
  - vm_compute. reflexivity.
  - vm_compute. reflexivity.
Defined.

(** The process ends after Alice's submission; the timer that would have
    fired is gone. *)
Definition afterExit : World := run uuidShape (submitted ++ [ProcessExit]) shop.

Lemma job_without_timer_is_frozen_witness : pendingJob = pendingJob.
Proof.
  apply (job_without_timer_is_frozen uuidShape afterExit
           [TimerFires succeeding "0"; TimerFires failing "0"] "0").
  - exists shop, (submitted ++ [ProcessExit]). split; [repeat split|reflexivity].
  - vm_compute. reflexivity.
  - vm_compute. apply not_elem_of_nil.
  - vm_compute. reflexivity.
Defined.

Lemma new_job_is_readable_by_its_creator_witness :
  ∃ summary g,
    res_body alicesAnswer = GenerationStarted summary ∧
    (getImageGeneration false (mkGetRequest (Some alice) (gs_id summary))
       afterSubmission).1 =
      Returned (mkResponse 200 (GenerationRetrieved
        (mkGenerationView (gs_id summary) g (user_id alice) (gs_product summary)))) ∧
    ig_status g = PENDING ∧ gs_status summary = PENDING ∧
    ig_prompt g = gs_prompt summary ∧ ig_style g = gs_style summary ∧
    ig_format g = gs_format summary ∧ ig_createdAt g = gs_createdAt summary ∧
    ∀ other, user_role other ≠ ADMIN → user_id other ≠ user_id alice →
      ∃ r', (getImageGeneration false (mkGetRequest (Some other) (gs_id summary))
               afterSubmission).1 = Returned r' ∧ res_status r' = 403.
Proof.
  apply (new_job_is_readable_by_its_creator uuidShape calm alice plainRequest shop).
  - vm_compute. reflexivity.
  - reflexivity.
Defined.

Lemma timer_completes_its_job_only_witness :
  ∃ g, imageGenerations afterSubmission !! fresh (issued shop) = Some g ∧
    ig_status g = PENDING ∧
    imageGenerations (fire succeeding (fresh (issued shop)) afterSubmission) =
      <[fresh (issued shop) := completedData (mockImageUrl "REALISTIC") 20 g]>
        (imageGenerations afterSubmission) ∧
    timers (fire succeeding (fresh (issued shop)) afterSubmission) = timers shop.
Proof.
  apply (timer_completes_its_job_only uuidShape calm succeeding alice plainRequest
           (mkGenerateBody "a red lamp" "REALISTIC" (Some "SQUARE") None) shop
           alicesAnswer).
  - exists shop, []. split; [repeat split|reflexivity].
  - vm_compute. reflexivity.
  - vm_compute. reflexivity.
  - reflexivity.
  - reflexivity.
Defined.

(** * The other handlers of the image controller *)

(** The answer of a handler whose data is of type [A]:
    [res.status(code).json({ success: false, message, error })] or
    [res.status(code).json({ success: true, ..., data })]. *)
Inductive Reply (A : Type) :=
| Refuse (code : nat) (message error : string)
| Accept (code : nat) (message : string) (data : A).
Arguments Refuse {A} code message error.
Arguments Accept {A} code message data.

Definition reply_status {A} (r : Reply A) : nat :=
  match r with
  | Refuse code _ _ => code
  | Accept code _ _ => code
  end.

(** ** [getProductImages] *)

Record ImagesRequest := mkImagesRequest {
  ireq_user : option User;
  ireq_productId : string
}.

Record ImagesEnv := mkImagesEnv {
  ie_findThrows : bool;
  ie_findManyThrows : bool
}.

(** [orderBy: [{ isPrimary: 'desc' }, { createdAt: 'asc' }]] *)
Definition primaryFirst (a b : string * ProductImage) : Prop :=
  (pi_isPrimary a.2 = true ∧ pi_isPrimary b.2 = false) ∨
  (pi_isPrimary a.2 = pi_isPrimary b.2 ∧ (pi_createdAt a.2 ≤ pi_createdAt b.2)%nat).

Global Instance primaryFirst_dec a b : Decision (primaryFirst a b).
Proof. unfold primaryFirst. apply _. Defined.

Global Instance primaryFirst_total : Total primaryFirst.
Proof.
  intros a b. unfold primaryFirst.
  destruct (pi_isPrimary a.2), (pi_isPrimary b.2);
    destruct (decide (pi_createdAt a.2 ≤ pi_createdAt b.2)%nat); naive_solver lia.
Qed.

Global Instance primaryFirst_trans : Transitive primaryFirst.
Proof.
  intros a b c. unfold primaryFirst.
  destruct (pi_isPrimary a.2), (pi_isPrimary b.2), (pi_isPrimary c.2);
    naive_solver lia.
Qed.

(** The images of a product, as rows with their [id]; of each row the
    handler selects the [id], the URL, the text, [isPrimary] and the date. *)
Definition imagesOf (productId : string) (w : World) : list (string * ProductImage) :=
  filter (λ kv, pi_productId kv.2 = productId) (map_to_list (productImages w)).

(** [findMany({ where: { productId }, orderBy })]; rows that the order
    does not tell apart come in one fixed order. *)
Definition productImage_findMany (throws : bool) (productId : string)
    : M (list (string * ProductImage)) :=
  dbCall throws (gets (λ w, merge_sort primaryFirst (imagesOf productId w))).

Definition getProductImages (env : ImagesEnv) (req : ImagesRequest)
    : M (Reply (list (string * ProductImage))) :=
  tryCatch
    (product ← product_findUnique (ie_findThrows env) (ireq_productId req);
     match product with
     | None => mret (Refuse 404 "Product not found" "PRODUCT_NOT_FOUND")
     | Some p =>
         let canAccess := canAccessAs (ireq_user req) (product_userId p) in
         if negb canAccess then
           mret (Refuse 403 "You can only access images for your own products"
                   "INSUFFICIENT_PERMISSIONS")
         else
           images ← productImage_findMany (ie_findManyThrows env) (ireq_productId req);
           mret (Accept 200 "Product images retrieved successfully" images)
     end)
    (mret (Refuse 500 "Internal server error while retrieving images" "INTERNAL_ERROR")).

(** ** [getUserImageGenerations] *)

(** [req.query] as the handler destructures it, after
    [validateRequest(paginationSchema, 'query')]: [page] and [limit] are
    integers from 1 when they are there; [status] is a member of the
    enumeration (any other string makes the database call throw). *)
Record ListQuery := mkListQuery {
  lq_page : option positive;
  lq_limit : option positive;
  lq_status : option GenerationStatus;
  lq_productId : option string
}.

Record ListRequest := mkListRequest {
  lreq_user : option User;
  lreq_query : ListQuery
}.

Record ListEnv := mkListEnv {
  le_findManyThrows : bool;
  le_countThrows : bool
}.

(** The [where] clause; a key that is [undefined] does not filter. *)
Record Where := mkWhere {
  where_userId : option string;
  where_status : option GenerationStatus;
  where_productId : option string
}.

(** [userId: req.user?.role === UserRole.ADMIN ? undefined : req.user?.id],
    then the [status] and [productId] of the query when they are truthy. *)
Definition listWhere (req : ListRequest) : Where :=
  mkWhere
    (match lreq_user req with
     | Some u => if bool_decide (user_role u = ADMIN) then None else Some (user_id u)
     | None => None
     end)
    (lq_status (lreq_query req))
    (if truthyStr (lq_productId (lreq_query req)) then lq_productId (lreq_query req)
     else None).

Definition matches (wh : Where) (g : ImageGeneration) : bool :=
  from_option (λ u, bool_decide (ig_userId g = u)) true (where_userId wh)
  && from_option (λ s, bool_decide (ig_status g = s)) true (where_status wh)
  && from_option (λ p, bool_decide (ig_productId g = Some p)) true (where_productId wh).

(** [orderBy: { createdAt: 'desc' }] *)
Definition newestFirst (a b : string * ImageGeneration) : Prop :=
  (ig_createdAt b.2 ≤ ig_createdAt a.2)%nat.

Global Instance newestFirst_dec a b : Decision (newestFirst a b).
Proof. unfold newestFirst. apply _. Defined.

Global Instance newestFirst_total : Total newestFirst.
Proof. intros a b. unfold newestFirst. lia. Qed.

Global Instance newestFirst_trans : Transitive newestFirst.
Proof. intros a b c. unfold newestFirst. lia. Qed.

(** The rows that a [where] clause selects, newest first. *)
Definition selected (wh : Where) (w : World) : list (string * ImageGeneration) :=
  merge_sort newestFirst
    (filter (λ kv, matches wh kv.2 = true) (map_to_list (imageGenerations w))).

(** [findMany({ where, orderBy, skip, take })] *)
Definition imageGeneration_findMany (throws : bool) (wh : Where) (skip limit : nat)
    : M (list (string * ImageGeneration)) :=
  dbCall throws (gets (λ w, take limit (drop skip (selected wh w)))).

(** [count({ where })] *)
Definition imageGeneration_count (throws : bool) (wh : Where) : M nat :=
  dbCall throws (gets (λ w, List.length (selected wh w))).

(** [Math.ceil(total / take)] for a positive [take]. *)
Definition ceilDiv (total limit : nat) : nat := (total + limit - 1) / limit.

Record Pagination := mkPagination {
  pg_page : nat;
  pg_limit : nat;
  pg_total : nat;
  pg_totalPages : nat;
  pg_hasNext : bool;
  pg_hasPrev : bool
}.

(** The body of the answer: the rows with their [id] and the pagination.  Of
    each row the handler selects the [id], the prompt, the style, the
    format, the status, the URL and the two dates, and joins the names of
    the user and of the product. *)
Record Page := mkPage {
  page_data : list (string * ImageGeneration);
  page_pagination : Pagination
}.

Definition getUserImageGenerations (env : ListEnv) (req : ListRequest) : M (Reply Page) :=
  tryCatch
    (let page := Pos.to_nat (default 1%positive (lq_page (lreq_query req))) in
     let limit := Pos.to_nat (default 20%positive (lq_limit (lreq_query req))) in
     let where_ := listWhere req in
     let skip := (page - 1) * limit in
     generations ← imageGeneration_findMany (le_findManyThrows env) where_ skip limit;
     total ← imageGeneration_count (le_countThrows env) where_;
     let totalPages := ceilDiv total limit in
     mret (Accept 200 "Image generations retrieved successfully"
       (mkPage generations
          (mkPagination page limit total totalPages
             (page <? totalPages)%nat (1 <? page)%nat))))
    (mret (Refuse 500 "Internal server error while retrieving image generations"
             "INTERNAL_ERROR")).

(** The answers with status 200 of the two handlers. *)
Definition imagesRetrieved (images : list (string * ProductImage))
    : Reply (list (string * ProductImage)) :=
  Accept 200 "Product images retrieved successfully" images.

Definition generationsRetrieved (page : Page) : Reply Page :=
  Accept 200 "Image generations retrieved successfully" page.

(** * Properties of the image handlers *)

Ltac unfold_handlers :=
  unfold tryCatch, respond, external, dbCall, throw, gets, modify, setTimeout,
    generateId, mbind, M_bind, mret, M_ret, set_products, set_productImages,
    set_imageGenerations, set_issued, set_timers in *.

Ltac case_step :=
  match goal with
  | |- context [match ?x with _ => _ end] =>
      lazymatch x with
      | context [match _ with _ => _ end] => fail
      | _ => destruct x eqn:?
      end
  end.

(** ** [deleteProductImage] *)

(** X5.  [deleteProductImage] answers 200 only to an administrator or to
    the owner of the product, and only for an image that is stored under the
    product of the request; the image is then removed and nothing else is
    changed.  With any other answer the world is what it was. *)
Theorem image_deletion_is_guarded env req w r w' :
  deleteProductImage env req w = (Returned r, w') →
  (res_status r = 200 →
   ∃ user img p,
     dreq_user req = Some user ∧
     productImages w !! dreq_imageId req = Some img ∧
     pi_productId img = dreq_productId req ∧
     products w !! dreq_productId req = Some p ∧
     (user_role user = ADMIN ∨ user_id user = product_userId p) ∧
     w' = set_productImages (delete (dreq_imageId req)) w) ∧
  (res_status r ≠ 200 → w' = w).
Proof.
  unfold deleteProductImage, productImage_findUnique, productImage_delete.
  unfold_handlers. simpl.
  destruct (dreq_user req) as [user|]; [|by intros [= <- <-]].
  destruct (de_findThrows env); simpl; [by intros [= <- <-]|].
  destruct (productImages w !! dreq_imageId req) as [img|] eqn:Himg;
    [|by intros [= <- <-]].
  case_bool_decide as Hpid; simpl; [|by intros [= <- <-]].
  destruct (products w !! pi_productId img) as [p|] eqn:Hp; simpl;
    [|by intros [= <- <-]].
  destruct (adminOrOwner user (product_userId p)) eqn:Hown; simpl;
    [|by intros [= <- <-]].
  destruct (de_deleteThrows env); simpl; [by intros [= <- <-]|].
  rewrite Himg. intros [= <- <-]. split; [|done]. intros _.
  exists user, img, p. rewrite <- Hpid. split_and!; try done.
  by apply adminOrOwner_true.
Qed.

(** ** [uploadProductImage] *)

(** X6.  [uploadProductImage] answers 201 only to an administrator or to
    the owner of an existing product, and only when a file came with the
    request.  The stored images of every other product, the products and
    the generation records are then what they were. *)
Theorem upload_is_guarded_and_local env req w r w' :
  uploadProductImage env req w = (Returned r, w') →
  res_status r = 201 →
  (∃ user p,
     ureq_user req = Some user ∧ is_Some (ureq_file req) ∧
     products w !! ureq_productId req = Some p ∧
     (user_role user = ADMIN ∨ user_id user = product_userId p)) ∧
  (∀ j a, productImages w !! j = Some a →
     pi_productId a ≠ ureq_productId req → j ≠ fresh (issued w) →
     productImages w' !! j = Some a) ∧
  products w' = products w ∧ imageGenerations w' = imageGenerations w ∧
  timers w' = timers w.
Proof.
  unfold uploadProductImage, product_findUnique, productImage_unsetPrimary,
    productImage_create.
  unfold_handlers. simpl.
  destruct (ureq_user req) as [user|]; [|by intros [= <- <-]].
  destruct (ureq_file req) as [file|]; [|by intros [= <- <-]].
  destruct (ue_findThrows env); simpl; [by intros [= <- <-]|].
  destruct (products w !! ureq_productId req) as [p|]; [|by intros [= <- <-]].
  destruct (adminOrOwner user (product_userId p)) eqn:Hown; simpl;
    [|by intros [= <- <-]].
  destruct (ue_sharpThrows env); simpl; [by intros [= <- <-]|].
  destruct (ue_secureUrl env) as [url|]; simpl; [|by intros [= <- <-]].
  assert (∀ j a, productImages w !! j = Some a →
            pi_productId a ≠ ureq_productId req →
            (demote (ureq_productId req) <$> productImages w) !! j = Some a) as Hkeep.
  { intros j a Ha Hne. rewrite lookup_fmap, Ha. simpl. by rewrite demote_other. }
  destruct (truthy (ureq_isPrimary req)); simpl.
  - destruct (ue_updateThrows env); simpl; [by intros [= <- <-]|].
    destruct (ue_createThrows env); simpl; [by intros [= <- <-]|].
    intros [= <- <-] _. simpl. split_and!; try done.
    + exists user, p. split_and!; try done. by apply adminOrOwner_true.
    + intros j a Ha Hne Hj. rewrite lookup_insert_ne by done. by apply Hkeep.
  - destruct (ue_createThrows env); simpl; [by intros [= <- <-]|].
    intros [= <- <-] _. simpl. split_and!; try done.
    + exists user, p. split_and!; try done. by apply adminOrOwner_true.
    + intros j a Ha Hne Hj. by rewrite lookup_insert_ne.
Qed.

(** X7.  The demotion and the creation are two database calls and not one
    transaction: when an image is uploaded as primary and the creation of
    its record throws, the answer is 500 and the product is left without
    any primary image. *)
Theorem failed_primary_upload_loses_the_primary env req w user file p url :
  ureq_user req = Some user →
  ureq_file req = Some file →
  products w !! ureq_productId req = Some p →
  user_role user = ADMIN ∨ user_id user = product_userId p →
  truthy (ureq_isPrimary req) = true →
  ue_findThrows env = false → ue_sharpThrows env = false →
  ue_secureUrl env = Some url →
  ue_updateThrows env = false → ue_createThrows env = true →
  ∃ r w', uploadProductImage env req w = (Returned r, w') ∧
    res_status r = 500 ∧
    dom (productImages w') = dom (productImages w) ∧
    ∀ j a, productImages w' !! j = Some a →
      pi_productId a = ureq_productId req → pi_isPrimary a = false.
Proof.
  intros Huser Hfile Hp Hown%adminOrOwner_true Hprimary Hfind Hsharp Hurl Hupd Hcreate.
  unfold uploadProductImage, product_findUnique, productImage_unsetPrimary,
    productImage_create.
  unfold_handlers. simpl.
  rewrite Huser, Hfile, Hfind. simpl. rewrite Hp, Hown, Hsharp. simpl.
  rewrite Hurl. simpl. rewrite Hprimary, Hupd. simpl. rewrite Hcreate. simpl.
  eexists _, _. split; [reflexivity|]. simpl. split_and!; [done|apply dom_fmap_L|].
  intros j a. rewrite lookup_fmap_Some. intros (a0 & <- & _).
  rewrite demote_productId. intros Hpid. unfold demote.
  rewrite bool_decide_eq_true_2 by done. simpl.
  destruct (pi_isPrimary a0) eqn:Hprim; simpl; [done|]. by rewrite Hprim.
Qed.

(** ** [getProductImages] *)

Lemma imagesOf_elem productId w i a :
  (i, a) ∈ imagesOf productId w ↔
  productImages w !! i = Some a ∧ pi_productId a = productId.
Proof.
  unfold imagesOf. rewrite list_elem_of_filter, elem_of_map_to_list. simpl. tauto.
Qed.

Lemma primaryFirst_head (l : list (string * ProductImage)) x :
  StronglySorted primaryFirst l → x ∈ l → pi_isPrimary x.2 = true →
  ∃ h t, l = h :: t ∧ pi_isPrimary h.2 = true.
Proof.
  intros Hs Hin Hprim. destruct Hs as [|h t _ Hall]; [by apply elem_of_nil in Hin|].
  exists h, t. split; [done|].
  apply elem_of_cons in Hin as [<- | Hin]; [done|].
  rewrite Forall_forall in Hall. destruct (Hall x Hin) as [[? ?] | [Heq _]]; congruence.
Qed.

(** X8.  [getProductImages] changes nothing.  When it answers 200, the
    caller is an administrator or the owner of the product, and the data
    are the stored images of that product, each once, the primary ones
    first and, among images that are alike in that, the older first; so if
    the product has a primary image, the list starts with one. *)
Theorem product_images_are_listed_in_order env req w r w' :
  getProductImages env req w = (Returned r, w') →
  w' = w ∧
  (reply_status r = 200 →
   ∃ images u p,
     r = imagesRetrieved images ∧
     ireq_user req = Some u ∧ products w !! ireq_productId req = Some p ∧
     (user_role u = ADMIN ∨ user_id u = product_userId p) ∧
     StronglySorted primaryFirst images ∧ NoDup images ∧
     (∀ i a, (i, a) ∈ images ↔
        productImages w !! i = Some a ∧ pi_productId a = ireq_productId req) ∧
     (∀ x, x ∈ images → pi_isPrimary x.2 = true →
        ∃ h t, images = h :: t ∧ pi_isPrimary h.2 = true)).
Proof.
  unfold getProductImages, product_findUnique, productImage_findMany.
  unfold_handlers. simpl.
  destruct (ie_findThrows env); simpl; [by intros [= <- <-]|].
  destruct (products w !! ireq_productId req) as [p|] eqn:Hp; [|by intros [= <- <-]].
  destruct (canAccessAs (ireq_user req) (product_userId p)) eqn:Hacc; simpl;
    [|by intros [= <- <-]].
  destruct (ie_findManyThrows env); simpl; [by intros [= <- <-]|].
  intros [= <- <-]. split; [done|]. intros _.
  unfold canAccessAs in Hacc. destruct (ireq_user req) as [u|]; [|done].
  apply adminOrOwner_true in Hacc.
  assert (StronglySorted primaryFirst
            (merge_sort primaryFirst (imagesOf (ireq_productId req) w))) as Hsorted.
  { apply StronglySorted_merge_sort; apply _. }
  eexists _, u, p. split_and!; try done.
  - rewrite merge_sort_Permutation. unfold imagesOf.
    apply NoDup_filter, NoDup_map_to_list.
  - intros i a. rewrite merge_sort_Permutation. apply imagesOf_elem.
  - intros x. by apply primaryFirst_head.
Qed.

(** ** [getUserImageGenerations] *)

Lemma selected_elem wh w i g :
  (i, g) ∈ selected wh w ↔ imageGenerations w !! i = Some g ∧ matches wh g = true.
Proof.
  unfold selected. rewrite merge_sort_Permutation, list_elem_of_filter,
    elem_of_map_to_list. simpl. tauto.
Qed.

Lemma getUserImageGenerations_outcome env req w :
  getUserImageGenerations env req w =
  (Returned
     (if le_findManyThrows env || le_countThrows env then
        Refuse 500 "Internal server error while retrieving image generations"
          "INTERNAL_ERROR"
      else
        let page := Pos.to_nat (default 1%positive (lq_page (lreq_query req))) in
        let limit := Pos.to_nat (default 20%positive (lq_limit (lreq_query req))) in
        let rows := selected (listWhere req) w in
        Accept 200 "Image generations retrieved successfully"
          (mkPage (take limit (drop ((page - 1) * limit) rows))
             (mkPagination page limit (List.length rows)
                (ceilDiv (List.length rows) limit)
                (page <? ceilDiv (List.length rows) limit)%nat (1 <? page)%nat))),
   w).
Proof.
  unfold getUserImageGenerations, imageGeneration_findMany, imageGeneration_count.
  unfold_handlers. simpl.
  by destruct (le_findManyThrows env), (le_countThrows env).
Qed.

(** X9.  [getUserImageGenerations] changes nothing, and to a caller who is
    no administrator it shows stored records of that caller only, whatever
    the query asks for. *)
Theorem listing_shows_own_generations_only env req w r w' u page :
  getUserImageGenerations env req w = (Returned r, w') →
  lreq_user req = Some u → user_role u ≠ ADMIN →
  r = generationsRetrieved page →
  w' = w ∧
  ∀ i g, (i, g) ∈ page_data page →
    imageGenerations w !! i = Some g ∧ ig_userId g = user_id u.
Proof.
  rewrite getUserImageGenerations_outcome. intros [= <- <-] Hu Hrole.
  destruct (le_findManyThrows env || le_countThrows env); [done|].
  intros [= <-]. split; [done|]. simpl. intros i g Hin.
  apply subseteq_take, subseteq_drop, selected_elem in Hin as [Hg Hm].
  split; [done|]. unfold matches, listWhere in Hm. rewrite Hu in Hm. simpl in Hm.
  rewrite bool_decide_eq_false_2 in Hm by done. simpl in Hm.
  apply andb_true_iff in Hm as [Hm _]. apply andb_true_iff in Hm as [Hm _].
  by apply bool_decide_eq_true in Hm.
Qed.



(** ** The public id that [deleteProductImage] hands to Cloudinary *)

(** [s.split(sep)] for a separator of one character. *)
Fixpoint splitOn (sep : ascii) (s : string) : list string :=
  match s with
  | EmptyString => [EmptyString]
  | String c r =>
      if bool_decide (c = sep) then EmptyString :: splitOn sep r
      else match splitOn sep r with
           | h :: t => String c h :: t
           | [] => [String c EmptyString]
           end
  end.

(** [parts.join(sep)] *)
Fixpoint joinWith (sep : string) (parts : list string) : string :=
  match parts with
  | [] => EmptyString
  | [x] => x
  | x :: rest => x +:+ sep +:+ joinWith sep rest
  end.

(** [parts.slice(-n)] *)
Definition sliceLast {A} (n : nat) (parts : list A) : list A :=
  drop (List.length parts - n) parts.

(** The lines that compute [publicId] from [image.imageUrl]. *)
Definition publicIdOf (imageUrl : string) : string :=
  let urlParts := splitOn "/" imageUrl in
  let publicIdWithExtension := joinWith "/" (sliceLast 2 urlParts) in
  default EmptyString (head (splitOn "." publicIdWithExtension)).

(** The character occurs in the string. *)
Fixpoint occurs (c : ascii) (s : string) : bool :=
  match s with
  | EmptyString => false
  | String c' r => bool_decide (c' = c) || occurs c r
  end.

Lemma append_cons x (a b : string) : String x a +:+ b = String x (a +:+ b).
Proof. reflexivity. Qed.

Lemma append_nil (b : string) : EmptyString +:+ b = b.
Proof. reflexivity. Qed.

Lemma append_assoc (a b c : string) : (a +:+ b) +:+ c = a +:+ (b +:+ c).
Proof.
  induction a as [|x a IH]; [done|]. by rewrite !append_cons, IH.
Qed.

Lemma occurs_append c a b : occurs c (a +:+ b) = occurs c a || occurs c b.
Proof.
  induction a as [|x a IH]; [done|].
  rewrite append_cons. simpl. by rewrite IH, orb_assoc.
Qed.

Lemma splitOn_cons sep s : ∃ h t, splitOn sep s = h :: t.
Proof.
  induction s as [|c r (h & t & IH)]; simpl; [by eauto|].
  case_bool_decide; [by eauto|]. rewrite IH. eauto.
Qed.

Lemma splitOn_append sep a b :
  splitOn sep (a +:+ String sep b) = splitOn sep a ++ splitOn sep b.
Proof.
  induction a as [|c a IH]; rewrite ?append_cons, ?append_nil; simpl.
  - by rewrite bool_decide_eq_true_2.
  - case_bool_decide; [by rewrite IH|].
    rewrite IH. by destruct (splitOn_cons sep a) as (h & t & ->).
Qed.

Lemma splitOn_whole sep s : occurs sep s = false → splitOn sep s = [s].
Proof.
  induction s as [|c r IH]; simpl; [done|].
  intros [Hc Hr]%orb_false_iff. rewrite Hc, (IH Hr). done.
Qed.

(** X11.  The public id computed for the deletion at Cloudinary keeps the
    last folder of the URL only: for a URL that ends in
    [/folder/name.ext], it is [folder/name], whatever comes before, so
    that every folder above the last one is lost. *)
Theorem public_id_keeps_the_last_folder_only base folder name ext :
  occurs "/" folder = false → occurs "/" name = false → occurs "/" ext = false →
  occurs "." folder = false → occurs "." name = false →
  publicIdOf (base +:+ "/" +:+ folder +:+ "/" +:+ name +:+ "." +:+ ext)
  = folder +:+ "/" +:+ name.
Proof.
  intros Hf Hn He Hfd Hnd. unfold publicIdOf.
  assert (occurs "/" (name +:+ "." +:+ ext) = false) as Hlast.
  { by rewrite !occurs_append, Hn, He. }
  change (base +:+ "/" +:+ folder +:+ "/" +:+ name +:+ "." +:+ ext)
    with (base +:+ String "/" (folder +:+ String "/" (name +:+ "." +:+ ext))).
  rewrite !splitOn_append, (splitOn_whole "/" folder Hf), (splitOn_whole "/" _ Hlast).
  unfold sliceLast. rewrite length_app. simpl.
  replace (List.length (splitOn "/" base) + 2 - 2)%nat
    with (List.length (splitOn "/" base)) by lia.
  rewrite drop_app_length. simpl.
  change (folder +:+ "/" +:+ name +:+ "." +:+ ext)
    with (folder +:+ (String "/" name +:+ String "." ext)).
  rewrite <- (append_assoc folder (String "/" name) (String "." ext)).
  rewrite splitOn_append.
  rewrite (splitOn_whole "." (folder +:+ String "/" name)); [done|].
  rewrite occurs_append, Hfd. simpl. rewrite Hnd. reflexivity.
Qed.

Lemma splitOn_head_clean sep s h t : splitOn sep s = h :: t → occurs sep h = false.
Proof.
  revert h t. induction s as [|c r IH]; simpl; intros h t.
  - by intros [= <- <-].
  - case_bool_decide as Hc; [by intros [= <- <-]|].
    destruct (splitOn sep r) as [|h' t'] eqn:Hr.
    + intros [= <- <-]. simpl. by rewrite bool_decide_eq_false_2.
    + intros [= <- <-]. simpl.
      rewrite bool_decide_eq_false_2 by done. by rewrite (IH h' t').
Qed.

(** X12.  The public id never contains a dot: whatever follows the first
    dot of the last two segments of the URL is cut off, also when the dot
    is not the one before the extension. *)
Theorem public_id_has_no_dot imageUrl : occurs "." (publicIdOf imageUrl) = false.
Proof.
  unfold publicIdOf.
  destruct (splitOn_cons "." (joinWith "/" (sliceLast 2 (splitOn "/" imageUrl))))
    as (h & t & Hsplit).
  rewrite Hsplit. simpl. by eapply splitOn_head_clean.
Qed.

(** ** On runs in the shop *)

Definition deleting : DeleteImageEnv := mkDeleteImageEnv false false.

Lemma image_deletion_is_guarded_witness :
  (200 = 200 →
   ∃ user img p,
     Some bob = Some user ∧
     productImages withPrimary !! "0" = Some img ∧
     pi_productId img = lamp ∧
     products withPrimary !! lamp = Some p ∧
     (user_role user = ADMIN ∨ user_id user = product_userId p) ∧
     (deleteProductImage deleting (mkDeleteImageRequest (Some bob) lamp "0")
        withPrimary).2
     = set_productImages (delete "0") withPrimary) ∧
  (200 ≠ 200 →
   (deleteProductImage deleting (mkDeleteImageRequest (Some bob) lamp "0")
      withPrimary).2 = withPrimary).
Proof.
  apply (image_deletion_is_guarded deleting (mkDeleteImageRequest (Some bob) lamp "0")
           withPrimary (mkResponse 200 (MessageBody "Product image deleted successfully"))).
  vm_compute. reflexivity.
Defined.

Definition firstResponse : Response :=
  mkResponse 201 (ProductImageUploaded
    (mkProductImageView "0" "https://cdn/1" "Lamp product image" true 30
       (Some (lamp, "Lamp")))).

Lemma upload_is_guarded_and_local_witness :
  (∃ user p,
     Some bob = Some user ∧ is_Some (Some "bytes") ∧
     products shop !! lamp = Some p ∧
     (user_role user = ADMIN ∨ user_id user = product_userId p)) ∧
  (∀ j a, productImages shop !! j = Some a →
     pi_productId a ≠ lamp → j ≠ fresh (issued shop) →
     productImages withPrimary !! j = Some a) ∧
  products withPrimary = products shop ∧
  imageGenerations withPrimary = imageGenerations shop ∧
  timers withPrimary = timers shop.
Proof.
  apply (upload_is_guarded_and_local (stored "https://cdn/1")
           (bobsUpload (Some (JsString "true"))) shop firstResponse).
  - vm_compute. reflexivity.
  - reflexivity.
Defined.

Definition losing : UploadEnv := mkUploadEnv 40 false false (Some "https://cdn/2") false true.

Lemma failed_primary_upload_loses_the_primary_witness :
  ∃ r w',
    uploadProductImage losing (bobsUpload (Some (JsString "true"))) withPrimary
    = (Returned r, w') ∧
    res_status r = 500 ∧
    dom (productImages w') = dom (productImages withPrimary) ∧
    ∀ j a, productImages w' !! j = Some a →
      pi_productId a = lamp → pi_isPrimary a = false.
Proof.
  apply (failed_primary_upload_loses_the_primary losing
           (bobsUpload (Some (JsString "true"))) withPrimary bob "bytes"
           (mkProduct "bob" "Lamp") "https://cdn/2").
  - reflexivity.
  - reflexivity.
  - vm_compute. reflexivity.
  - right. reflexivity.
  - reflexivity.
  - reflexivity.
  - reflexivity.
  - reflexivity.
  - reflexivity.
  - reflexivity.
Defined.

(** Bob uploads a second image of the lamp, not as primary and later. *)
Definition twoImages : World :=
  run uuidShape
    [Upload (mkUploadEnv 20 false false (Some "https://cdn/0") false false)
       (bobsUpload None);
     Upload (stored "https://cdn/1") (bobsUpload (Some (JsString "true")))]
    shop.

Definition bobsImages : list (string * ProductImage) :=
  [("1", mkProductImage lamp "https://cdn/1" "Lamp product image" true 30);
   ("0", mkProductImage lamp "https://cdn/0" "Lamp product image" false 20)].

Lemma product_images_are_listed_in_order_witness :
  twoImages = twoImages ∧
  (200 = 200 →
   ∃ images u p,
     imagesRetrieved bobsImages = imagesRetrieved images ∧
     Some bob = Some u ∧ products twoImages !! lamp = Some p ∧
     (user_role u = ADMIN ∨ user_id u = product_userId p) ∧
     StronglySorted primaryFirst images ∧ NoDup images ∧
     (∀ i a, (i, a) ∈ images ↔
        productImages twoImages !! i = Some a ∧ pi_productId a = lamp) ∧
     (∀ x, x ∈ images → pi_isPrimary x.2 = true →
        ∃ h t, images = h :: t ∧ pi_isPrimary h.2 = true)).
Proof.
  apply (product_images_are_listed_in_order (mkImagesEnv false false)
           (mkImagesRequest (Some bob) lamp) twoImages (imagesRetrieved bobsImages)).
  vm_compute. reflexivity.
Defined.

Definition firstPage : Page :=
  mkPage [("0", completedJob)] (mkPagination 1 20 1 1 false false).

Definition alicesList : ListRequest :=
  mkListRequest (Some alice) (mkListQuery None None None None).

Lemma listing_shows_own_generations_only_witness :
  afterSuccess = afterSuccess ∧
  ∀ i g, (i, g) ∈ page_data firstPage →
    imageGenerations afterSuccess !! i = Some g ∧ ig_userId g = user_id alice.
Proof.
  apply (listing_shows_own_generations_only (mkListEnv false false) alicesList
           afterSuccess (generationsRetrieved firstPage)).
  - vm_compute. reflexivity.
  - reflexivity.
  - discriminate.
  - reflexivity.
Defined.


Lemma public_id_keeps_the_last_folder_only_witness :
  publicIdOf "https://res.cloudinary.com/demo/image/upload/v1/mayalens/products/product-1-2-ab.webp"
  = "products/product-1-2-ab".
Proof.
  apply (public_id_keeps_the_last_folder_only
           "https://res.cloudinary.com/demo/image/upload/v1/mayalens"
           "products" "product-1-2-ab" "webp"); reflexivity.
Defined.

(** * What the validation of a submission guarantees *)

(** ** [trim] gives a trimmed string *)

Abbreviation chars := list_ascii_of_string.

Fixpoint dropSpaces (l : list ascii) : list ascii :=
  match l with
  | c :: r => if isWhiteSpace c then dropSpaces r else l
  | [] => []
  end.

Lemma chars_rev_app s1 s2 : chars (String.rev_app s1 s2) = rev (chars s1) ++ chars s2.
Proof.
  revert s2. induction s1 as [|a s1 IH]; intros s2; simpl; [done|].
  rewrite IH. simpl. by rewrite <- app_assoc.
Qed.

Lemma chars_rev s : chars (String.rev s) = rev (chars s).
Proof. unfold String.rev. rewrite chars_rev_app. simpl. apply app_nil_r. Qed.

Lemma chars_trimStart s : chars (trimStart s) = dropSpaces (chars s).
Proof.
  induction s as [|c r IH]; simpl; [done|]. by destruct (isWhiteSpace c).
Qed.

Lemma chars_trim s : chars (trim s) = rev (dropSpaces (rev (dropSpaces (chars s)))).
Proof. unfold trim. by rewrite chars_rev, chars_trimStart, chars_rev, chars_trimStart. Qed.

Lemma chars_inj s1 s2 : chars s1 = chars s2 → s1 = s2.
Proof.
  intros H. rewrite <- (string_of_list_ascii_of_string s1),
    <- (string_of_list_ascii_of_string s2). by rewrite H.
Qed.

(** No white space in front. *)
Definition startsClean (l : list ascii) : Prop :=
  match l with
  | c :: _ => isWhiteSpace c = false
  | [] => True
  end.

Lemma dropSpaces_clean l : startsClean (dropSpaces l).
Proof.
  induction l as [|c r IH]; simpl; [done|].
  destruct (isWhiteSpace c) eqn:Hc; [done|]. simpl. done.
Qed.

Lemma dropSpaces_id l : startsClean l → dropSpaces l = l.
Proof. destruct l as [|c r]; simpl; [done|]. by intros ->. Qed.

Lemma dropSpaces_last l c :
  last (dropSpaces l) = Some c → last l = Some c.
Proof.
  induction l as [|x r IH]; simpl; [done|].
  destruct (isWhiteSpace x); [|done].
  intros H. specialize (IH H). destruct r; [done|]. done.
Qed.

Lemma startsClean_rev l :
  (∀ c, last l = Some c → isWhiteSpace c = false) → startsClean (rev l).
Proof.
  intros H. destruct (rev l) as [|c r] eqn:Hr; simpl; [done|].
  apply H. rewrite <- (rev_involutive l), Hr. simpl. by rewrite last_snoc.
Qed.

Lemma trim_idempotent s : trim (trim s) = trim s.
Proof.
  apply chars_inj. rewrite !chars_trim.
  set (a := dropSpaces (chars s)). set (b := dropSpaces (rev a)).
  assert (startsClean (rev b)) as Hrb.
  { apply startsClean_rev. intros c Hc.
    apply dropSpaces_last in Hc.
    pose proof (dropSpaces_clean (chars s)) as Ha. fold a in Ha.
    destruct a as [|x a']; [done|]. simpl in Hc.
    rewrite last_snoc in Hc. by simplify_eq. }
  rewrite (dropSpaces_id (rev b) Hrb), rev_involutive.
  by rewrite (dropSpaces_id b (dropSpaces_clean _)).
Qed.

Section Schema.

Variable isUuid : string → bool.

Lemma checkPrompt_inr v t :
  checkPrompt v = inr t →
  ∃ s, v = Some (JsString s) ∧ t = trim s ∧ (5 ≤ String.length t ≤ 500)%nat.
Proof.
  unfold checkPrompt. destruct v as [[s| | |]|]; try done.
  case_bool_decide; [done|].
  destruct (String.length (trim s) <? 5)%nat eqn:Hmin; [done|].
  destruct (500 <? String.length (trim s))%nat eqn:Hmax; [done|].
  apply Nat.ltb_ge in Hmin, Hmax. intros [= <-]. eauto.
Qed.

Lemma checkOneOf_inr allowed dflt v x :
  dflt ∈ allowed → checkOneOf allowed dflt v = inr x → x ∈ allowed.
Proof.
  intros Hd. unfold checkOneOf. destruct v as [[s| | |]|]; try done.
  - case_bool_decide; [|done]. by intros [= <-].
  - by intros [= <-].
Qed.

Lemma checkProductId_inr v p :
  checkProductId isUuid v = inr (Some p) → p ≠ "" ∧ isUuid p = true.
Proof.
  unfold checkProductId. destruct v as [[s| | |]|]; try done.
  case_bool_decide; [done|]. destruct (isUuid s) eqn:Hs; [|done].
  by intros [= <-].
Qed.

Lemma generateImageSchema_sound raw body :
  generateImageSchema isUuid raw = inr body →
  (∃ s, raw_prompt raw = Some (JsString s) ∧ body_prompt body = trim s) ∧
  (5 ≤ String.length (body_prompt body) ≤ 500)%nat ∧
  body_style body ∈ styles ∧
  (∃ f, body_format body = Some f ∧ f ∈ formats) ∧
  (∀ pid, body_productId body = Some pid → pid ≠ "" ∧ isUuid pid = true).
Proof.
  unfold generateImageSchema.
  destruct (checkPrompt (raw_prompt raw)) as [|p] eqn:Hp; [by repeat case_match|].
  destruct (checkOneOf styles "REALISTIC" (raw_style raw)) as [|st] eqn:Hst;
    [by repeat case_match|].
  destruct (checkOneOf formats "SQUARE" (raw_format raw)) as [|f] eqn:Hf;
    [by repeat case_match|].
  destruct (checkProductId isUuid (raw_productId raw)) as [|i] eqn:Hi; [done|].
  intros [= <-]. simpl.
  apply checkPrompt_inr in Hp as (s & Hs & Ht & Hlen).
  apply checkOneOf_inr in Hst; [|set_solver].
  apply checkOneOf_inr in Hf; [|set_solver].
  split_and!; eauto; try apply Hlen.
  intros pid ->. by apply checkProductId_inr in Hi.
Qed.

(** X13.  The record of an accepted submission keeps what the validation
    let through: a prompt without white space at either end and of 5 to 500
    characters, a style and a format of the schema (never the [PNG] that
    the handler has as its own default), and a product [id] that passed the
    test for UUIDs. *)
Theorem accepted_job_satisfies_the_schema env user raw w r w' :
  postGenerate isUuid env (Authenticated user) raw w = (Returned r, w') →
  res_status r = 202 →
  ∃ g, imageGenerations w' !! fresh (issued w) = Some g ∧
    trim (ig_prompt g) = ig_prompt g ∧
    (5 ≤ String.length (ig_prompt g) ≤ 500)%nat ∧
    ig_style g ∈ styles ∧ ig_format g ∈ formats ∧
    (∀ pid, ig_productId g = Some pid → isUuid pid = true).
Proof.
  unfold postGenerate.
  destruct (generateImageSchema isUuid raw) as [details|body] eqn:Hvalid; simpl.
  { by intros [= <- <-]. }
  destruct (generateImageSchema_sound raw body Hvalid)
    as ((s & _ & Hprompt) & Hlen & Hstyle & (f & Hf & Hformat) & Hpid).
  rewrite generateImage_outcome. intros Hcall Hstatus.
  exists (acceptedRow env user body).
  assert (w' = acceptedWorld env user body w) as ->.
  { destruct (productCheck env user body w), (ge_createThrows env);
      injection Hcall as <- <-; first [done | by vm_compute in Hstatus]. }
  simpl. rewrite lookup_insert_eq, Hf, Hprompt. simpl.
  split_and!; try done; try (rewrite <- Hprompt; apply Hlen).
  - by rewrite trim_idempotent.
  - intros pid. destruct (truthyStr (body_productId body)); [|done].
    intros Hp. by apply Hpid.
Qed.

End Schema.

(** Bob asks for a cartoon of his lamp. *)
Definition bobsAnswer : Response :=
  mkResponse 202 (GenerationStarted
    (mkGenerationSummary "0" "a red lamp" "CARTOON" "SQUARE" PENDING 10
       (Some (lamp, "Lamp")))).

Definition afterBobsSubmission : World :=
  run uuidShape [PostGenerate calm (Authenticated bob) lampRequest] shop.

Lemma accepted_job_satisfies_the_schema_witness :
  ∃ g, imageGenerations afterBobsSubmission !! fresh (issued shop) = Some g ∧
    trim (ig_prompt g) = ig_prompt g ∧
    (5 ≤ String.length (ig_prompt g) ≤ 500)%nat ∧
    ig_style g ∈ styles ∧ ig_format g ∈ formats ∧
    (∀ pid, ig_productId g = Some pid → uuidShape pid = true).
Proof.
  apply (accepted_job_satisfies_the_schema uuidShape calm bob lampRequest shop
           bobsAnswer).
  - vm_compute. reflexivity.
  - reflexivity.
Defined.

(** * Where the results of the jobs come from *)

Section Provenance.

Variable isUuid : string → bool.

(** What an event does to the generation records and to the timers, with
    the data that it writes. *)
Inductive Change (w w' : World) : Prop :=
| Dropped :
    imageGenerations w' ⊆ imageGenerations w →
    timers w' `sublist_of` timers w →
    Change w w'
| Accepted env user raw body :
    generateImageSchema isUuid raw = inr body →
    w' = acceptedWorld env user body w →
    Change w w'
| Wrote env i t g :
    timers w !! i = Some t →
    imageGenerations w !! timer_job t = Some g →
    imageGenerations w' =
      <[timer_job t :=
          if te_completeThrows env then failedData g
          else completedData (mockImageUrl (timer_style t)) (te_now env) g]>
        (imageGenerations w) →
    timers w' = delete i (timers w) →
    Change w w'.

Lemma Change_refl w : Change w w.
Proof. by apply Dropped. Qed.

Lemma step_change e w : Change w (step isUuid e w).
Proof.
  destruct e as [env auth raw|env job|findThrows req|env req|env req|id|id|table|m path|];
    simpl.
  - unfold postGenerate. destruct auth as [user|]; [|apply Change_refl].
    destruct (generateImageSchema isUuid raw) as [details|body] eqn:Hvalid;
      [apply Change_refl|].
    rewrite generateImage_outcome.
    destruct (productCheck env user body w); try apply Change_refl;
      (destruct (ge_createThrows env); [apply Change_refl|]);
      by apply (Accepted w _ env user raw body).
  - unfold fire. destruct (pendingTimer job w) as [[i t]|] eqn:Hp; [|apply Change_refl].
    apply list_find_Some in Hp as (Ht & _ & _).
    rewrite generationCallback_cases. simpl.
    assert (Change w (set_timers (delete i) w)) as Hdrop.
    { apply Dropped; simpl; [done|apply sublist_delete]. }
    destruct (imageGenerations w !! timer_job t) as [g|] eqn:Hg; [|exact Hdrop].
    destruct (te_completeThrows env) eqn:Hc.
    + destruct (te_failThrows env); [exact Hdrop|].
      apply (Wrote w _ env i t g); simpl; try done. by rewrite Hc.
    + apply (Wrote w _ env i t g); simpl; try done. by rewrite Hc.
  - rewrite getImageGeneration_readonly. apply Change_refl.
  - destruct (uploadProductImage_outcome env req w); simpl; by apply Dropped.
  - destruct (deleteProductImage_images env req w) as [-> | ->]; by apply Dropped.
  - apply Dropped; simpl; [apply map_filter_subseteq|done].
  - by apply Dropped.
  - by apply Dropped.
  - apply Change_refl.
  - apply Dropped; simpl; [done|apply sublist_nil_l].
Qed.

(** The style of a record is one of the schema, a pending timer carries the
    style of its record, and what a finished record shows is what the
    callback wrote for that style. *)
Record Provenance (w : World) : Prop := mkProvenance {
  pv_style : ∀ id g, imageGenerations w !! id = Some g → ig_style g ∈ styles;
  pv_timer : ∀ t g,
    t ∈ timers w → imageGenerations w !! timer_job t = Some g →
    timer_style t = ig_style g;
  pv_completed : ∀ id g,
    imageGenerations w !! id = Some g → ig_status g = COMPLETED →
    ig_imageUrl g = Some (mockImageUrl (ig_style g));
  pv_failed : ∀ id g,
    imageGenerations w !! id = Some g → ig_status g = FAILED →
    ig_errorMessage g = Some "Image generation failed"
}.

Lemma Provenance_initial w : initial w → Provenance w.
Proof.
  intros (Hgens & _ & Htimers).
  split; intros ? ?; rewrite ?Hgens, ?Htimers;
    first [by rewrite lookup_empty | by intros ?%elem_of_nil].
Qed.

Lemma Provenance_change w w' :
  Lifecycle w → Provenance w → Change w w' → Provenance w'.
Proof.
  intros Hl [Hstyle Htimer Hdone Hfailed]
    [Hgens Htimers | env user raw body Hvalid -> | env i t g Ht Hg Hgens Htimers].
  - split.
    + intros id g Hg. eapply Hstyle, lookup_weaken; done.
    + intros t g Hin Hg. apply Htimer.
      * by eapply elem_of_sublist.
      * by eapply lookup_weaken.
    + intros id g Hg. eapply Hdone, lookup_weaken; done.
    + intros id g Hg. eapply Hfailed, lookup_weaken; done.
  - pose proof (generateImageSchema_sound isUuid raw body Hvalid)
      as (_ & _ & Hin & _).
    split; simpl.
    + intros id g. rewrite lookup_insert. case_decide; [|by apply Hstyle].
      by intros [= <-].
    + intros t g [Hold|Hnew%list_elem_of_singleton]%elem_of_app.
      * rewrite lookup_insert_ne; [by apply Htimer|].
        intros Heq. apply (fresh_not_timer w Hl). rewrite Heq.
        unfold timerJobs. by apply list_elem_of_fmap_2.
      * subst t. simpl. rewrite lookup_insert_eq. by intros [= <-].
    + intros id g. rewrite lookup_insert. case_decide; [|by apply Hdone].
      by intros [= <-].
    + intros id g. rewrite lookup_insert. case_decide; [|by apply Hfailed].
      by intros [= <-].
  - assert (t ∈ timers w) as Hin by by eapply list_elem_of_lookup_2.
    pose proof (Htimer t g Hin Hg) as Hts.
    split.
    + intros id g'. rewrite Hgens, lookup_insert. case_decide; [|by apply Hstyle].
      intros [= <-]. destruct (te_completeThrows env); simpl; by eapply Hstyle.
    + intros t' g' Hin' . rewrite Htimers in Hin'.
      assert (t' ∈ timers w) as Hold.
      { eapply elem_of_sublist; [exact Hin'|apply sublist_delete]. }
      rewrite Hgens, lookup_insert. case_decide as Hjob; [|by apply Htimer].
      intros [= <-]. rewrite Hjob in Hg. pose proof (Htimer t' g Hold Hg) as Hts'.
      by destruct (te_completeThrows env).
    + intros id g'. rewrite Hgens, lookup_insert. case_decide; [|by apply Hdone].
      intros [= <-]. destruct (te_completeThrows env); simpl; [done|].
      intros _. by rewrite Hts.
    + intros id g'. rewrite Hgens, lookup_insert. case_decide; [|by apply Hfailed].
      intros [= <-]. by destruct (te_completeThrows env).
Qed.

Lemma Provenance_run es : ∀ w, Lifecycle w → Provenance w → Provenance (run isUuid es w).
Proof.
  induction es as [|e es IH]; intros w Hl Hp; [done|].
  simpl. apply IH.
  - eapply (Lifecycle_effect isUuid); [done|apply step_effect].
  - eapply Provenance_change; [done..|apply step_change].
Qed.

Lemma encodeURIComponent_style s : s ∈ styles → encodeURIComponent s = s.
Proof.
  unfold styles. intros Hin.
  repeat (apply elem_of_cons in Hin as [->|Hin]); try by vm_compute.
  by apply elem_of_nil in Hin.
Qed.

(** X14.  In every state that the system reaches, the style of a record is
    one of the five styles of the schema; the image of a [COMPLETED] job is
    the placeholder URL followed by the style of the job as it is, never
    anything that was generated; and the error of a [FAILED] job is the one
    text of the callback. *)
Theorem finished_jobs_show_the_placeholder w id g :
  reachable isUuid w →
  imageGenerations w !! id = Some g →
  ig_style g ∈ styles ∧
  (ig_status g = COMPLETED →
   ig_imageUrl g =
     Some ("https://via.placeholder.com/512x512/4F46E5/FFFFFF?text=" +:+ ig_style g)) ∧
  (ig_status g = FAILED → ig_errorMessage g = Some "Image generation failed").
Proof.
  intros (w0 & es & Hinit & ->) Hg.
  assert (Provenance (run isUuid es w0)) as [Hstyle _ Hdone Hfailed].
  { apply Provenance_run; [by apply Lifecycle_initial|by apply Provenance_initial]. }
  split_and!.
  - by apply (Hstyle id).
  - intros Hs. rewrite (Hdone id g Hg Hs). unfold mockImageUrl.
    rewrite encodeURIComponent_style; [done|by apply (Hstyle id)].
  - by apply (Hfailed id).
Qed.

End Provenance.

Lemma finished_jobs_show_the_placeholder_witness :
  ig_style completedJob ∈ styles ∧
  (ig_status completedJob = COMPLETED →
   ig_imageUrl completedJob =
     Some ("https://via.placeholder.com/512x512/4F46E5/FFFFFF?text=" +:+
           ig_style completedJob)) ∧
  (ig_status completedJob = FAILED →
   ig_errorMessage completedJob = Some "Image generation failed").
Proof.
  apply (finished_jobs_show_the_placeholder uuidShape afterSuccess "0").
  - exists shop, (submitted ++ [TimerFires succeeding "0"]).
    split; [repeat split|reflexivity].
  - vm_compute. reflexivity.
Defined.

(** ** A record deleted under its timer *)

(** X15.  [deleteUser] removes the records of the user and leaves their
    timers pending.  The callback of such a timer finds no record to
    update, in its [try] block and in its [catch] block alike: it writes
    nothing and ends in a rejection that nothing handles, also when the
    database is in order. *)
Theorem deleted_job_rejects_in_its_callback env w i t g :
  timers w !! i = Some t →
  imageGenerations w !! timer_job t = Some g →
  timers (deleteUserTransaction (ig_userId g) w) = timers w ∧
  imageGenerations (deleteUserTransaction (ig_userId g) w) !! timer_job t = None ∧
  generationCallback env t
    (set_timers (delete i) (deleteUserTransaction (ig_userId g) w))
  = (Thrown, set_timers (delete i) (deleteUserTransaction (ig_userId g) w)).
Proof.
  intros Ht Hg.
  assert (imageGenerations (deleteUserTransaction (ig_userId g) w) !! timer_job t = None)
    as Hgone.
  { simpl. apply map_lookup_filter_None. right. intros g' Hg'. simpl.
    rewrite Hg in Hg'. injection Hg' as <-. by intros []. }
  split_and!; [done|done|].
  rewrite generationCallback_cases. simpl in *. by rewrite Hgone.
Qed.

Lemma deleted_job_rejects_in_its_callback_witness :
  timers (deleteUserTransaction (ig_userId pendingJob) afterSubmission)
    = timers afterSubmission ∧
  imageGenerations (deleteUserTransaction (ig_userId pendingJob) afterSubmission)
    !! timer_job (mkTimer "0" "REALISTIC") = None ∧
  generationCallback succeeding (mkTimer "0" "REALISTIC")
    (set_timers (delete 0%nat)
       (deleteUserTransaction (ig_userId pendingJob) afterSubmission))
  = (Thrown,
     set_timers (delete 0%nat)
       (deleteUserTransaction (ig_userId pendingJob) afterSubmission)).
Proof.
  apply (deleted_job_rejects_in_its_callback succeeding afterSubmission 0
           (mkTimer "0" "REALISTIC") pendingJob).
  - vm_compute. reflexivity.
  - vm_compute. reflexivity.
Defined.

(** * The authentication middleware *)

(** ** The token of the [Authorization] header *)

(** [extractTokenFromHeader] of the JWT utilities. *)
Definition extractTokenFromHeader (authHeader : option string) : option string :=
  match authHeader with
  | None => None
  | Some h =>
      if negb (truthyStr (Some h)) || negb (String.prefix "Bearer " h) then None
      else match splitOn " " h with
           | [_; token] => if truthyStr (Some token) then Some token else None
           | _ => None
           end
  end.

(** ** Accounts, tokens and requests *)

(** The team that [authenticate] selects with the user. *)
Record Team := mkTeam {
  team_id : string;
  team_name : string;
  team_plan : string;
  team_isActive : bool
}.

(** The row that [authenticate] selects from the table of users. *)
Record Account := mkAccount {
  acc_id : string;
  acc_email : string;
  acc_firstName : string;
  acc_lastName : string;
  acc_role : UserRole;
  acc_isActive : bool;
  acc_emailVerified : bool;
  acc_createdAt : Time;
  acc_updatedAt : Time;
  acc_team : option Team
}.

Record JwtPayload := mkJwtPayload {
  jp_userId : string;
  jp_email : string;
  jp_role : UserRole
}.

(** What [jwt.verify] does with a token. *)
Inductive JwtOutcome :=
| Verified (payload : JwtPayload)
| TokenExpiredError
| JsonWebTokenError
| OtherJwtError.

(** What the middlewares read and write of a request. *)
Record AuthRequest := mkAuthRequest {
  req_authorization : option string;
  req_user : option Account;
  req_userId : option string
}.

(** The body of an answer of a middleware; [requireRole] adds the roles it
    asked for and the role it found. *)
Record Denial := mkDenial {
  den_code : nat;
  den_message : string;
  den_error : string;
  den_roles : option (list UserRole * UserRole)
}.

(** A middleware calls [next] or answers. *)
Inductive Middleware :=
| Next (req : AuthRequest)
| Denied (d : Denial).

Definition deny (code : nat) (message error : string) : Middleware :=
  Denied (mkDenial code message error None).

(** [req.user = user; req.userId = user.id] *)
Definition attach (user : Account) (req : AuthRequest) : AuthRequest :=
  mkAuthRequest (req_authorization req) (Some user) (Some (acc_id user)).

Section Auth.

(** [jwt.verify] with the secret, the issuer and the audience of the API. *)
Variable jwtVerify : string → JwtOutcome.

(** [verifyAccessToken]: the payload, or the message of the error thrown. *)
Definition verifyAccessToken (token : string) : string + JwtPayload :=
  match jwtVerify token with
  | Verified payload => inr payload
  | TokenExpiredError => inl "Token expired"
  | JsonWebTokenError => inl "Invalid token"
  | OtherJwtError => inl "Token verification failed"
  end.

(** [authenticate]; [findThrows] tells whether [prisma.user.findUnique]
    throws. *)
Definition authenticate (users : gmap string Account) (findThrows : bool)
    (req : AuthRequest) : Middleware :=
  match extractTokenFromHeader (req_authorization req) with
  | None => deny 401 "Access token is required" "MISSING_TOKEN"
  | Some token =>
      match verifyAccessToken token with
      | inl message => deny 401 message "INVALID_TOKEN"
      | inr decoded =>
          if findThrows then
            deny 500 "Internal server error during authentication" "INTERNAL_ERROR"
          else match users !! jp_userId decoded with
               | None => deny 401 "User not found" "USER_NOT_FOUND"
               | Some user =>
                   if negb (acc_isActive user) then
                     deny 401 "User account is deactivated" "USER_DEACTIVATED"
                   else Next (attach user req)
               end
      end
  end.

(** [optionalAuth] *)
Definition optionalAuth (users : gmap string Account) (findThrows : bool)
    (req : AuthRequest) : Middleware :=
  match extractTokenFromHeader (req_authorization req) with
  | None => Next req
  | Some token =>
      match verifyAccessToken token with
      | inl _ => Next req
      | inr decoded =>
          if findThrows then Next req
          else match users !! jp_userId decoded with
               | Some user =>
                   if acc_isActive user then
                     Next (attach user req)
                   else Next req
               | None => Next req
               end
      end
  end.

Definition notAuthenticated : Middleware :=
  deny 401 "Authentication required" "NOT_AUTHENTICATED".

(** [requireRole(...roles)] *)
Definition requireRole (roles : list UserRole) (req : AuthRequest) : Middleware :=
  match req_user req with
  | None => notAuthenticated
  | Some user =>
      if negb (bool_decide (acc_role user ∈ roles)) then
        Denied (mkDenial 403 "Insufficient permissions" "INSUFFICIENT_PERMISSIONS"
                  (Some (roles, acc_role user)))
      else Next req
  end.

Definition requireAdmin : AuthRequest → Middleware := requireRole [ADMIN].

Definition requireTeamOwnerOrAdmin (req : AuthRequest) : Middleware :=
  match req_user req with
  | None => notAuthenticated
  | Some user =>
      let isAdmin := bool_decide (acc_role user = ADMIN) in
      let isTeamOwner := bool_decide (acc_role user = TEAM_OWNER) in
      if negb isAdmin && negb isTeamOwner then
        deny 403 "Team owner or admin access required" "INSUFFICIENT_PERMISSIONS"
      else Next req
  end.

Definition requireEmailVerification (req : AuthRequest) : Middleware :=
  match req_user req with
  | None => notAuthenticated
  | Some user =>
      if negb (acc_emailVerified user) then
        deny 403 "Email verification required" "EMAIL_NOT_VERIFIED"
      else Next req
  end.

Definition requireActiveTeam (req : AuthRequest) : Middleware :=
  match req_user req with
  | None => notAuthenticated
  | Some user =>
      if match acc_team user with
         | None => true
         | Some team => negb (team_isActive team)
         end
      then deny 403 "Active team membership required" "NO_ACTIVE_TEAM"
      else Next req
  end.

(** The middlewares of a route run in their order until one answers. *)
Fixpoint runChain (chain : list (AuthRequest → Middleware)) (req : AuthRequest)
    : Middleware :=
  match chain with
  | [] => Next req
  | m :: rest =>
      match m req with
      | Next req' => runChain rest req'
      | Denied d => Denied d
      end
  end.

Section Chains.

Variable users : gmap string Account.
Variable findThrows : bool.

Definition requireAuthenticatedUser := [authenticate users findThrows].
Definition requireVerifiedUser := [authenticate users findThrows; requireEmailVerification].
Definition requireActiveTeamMember :=
  [authenticate users findThrows; requireEmailVerification; requireActiveTeam].
Definition requireTeamManager :=
  [authenticate users findThrows; requireEmailVerification; requireActiveTeam;
   requireTeamOwnerOrAdmin].
Definition requireSystemAdmin := [authenticate users findThrows; requireAdmin].

End Chains.

(** The user that the handlers of the image controller read of [req.user]. *)
Definition userOf (a : Account) : User := mkUser (acc_id a) (acc_role a).

(** ** Properties *)

Lemma splitOn_single sep s t : splitOn sep s = [t] → s = t ∧ occurs sep t = false.
Proof.
  revert t. induction s as [|c r IH]; intros t; simpl.
  - by intros [= <-].
  - case_bool_decide as Hc.
    + destruct (splitOn_cons sep r) as (h & tl & Hs). rewrite Hs. done.
    + destruct (splitOn sep r) as [|h tl] eqn:Hr.
      { destruct (splitOn_cons sep r) as (? & ? & ?). congruence. }
      intros [= <- ->]. destruct (IH h eq_refl) as [-> Hocc]. split; [done|].
      simpl. rewrite Hocc. by case_bool_decide.
Qed.

Lemma prefix_bearer h : String.prefix "Bearer " h = true → ∃ r, h = "Bearer " +:+ r.
Proof.
  intros H.
  repeat (destruct h as [|? h]; [done|]; simpl in H;
          match type of H with
          | (if ?d then _ else _) = _ => destruct d as [<-|]; [|done]
          end).
  by exists h.
Qed.

(** X16.  [extractTokenFromHeader] finds a token exactly in a header that is
    [Bearer], one space and a token that is not empty and has no space in
    it; the token it gives is the header without [Bearer] and that space. *)
Theorem bearer_token_is_extracted_exactly authHeader token :
  extractTokenFromHeader authHeader = Some token ↔
  authHeader = Some ("Bearer " +:+ token) ∧ token ≠ "" ∧ occurs " " token = false.
Proof.
  unfold extractTokenFromHeader. split.
  - destruct authHeader as [h|]; [|done].
    destruct (truthyStr (Some h)); [|done]. simpl.
    destruct (String.prefix "Bearer " h) eqn:Hp; [|done]. simpl.
    apply prefix_bearer in Hp as [r ->].
    change ("Bearer " +:+ r) with ("Bearer" +:+ String " " r).
    rewrite splitOn_append.
    change (splitOn " " "Bearer") with ["Bearer"]. simpl.
    destruct (splitOn " " r) as [|t [|]] eqn:Hr; try done.
    case_bool_decide as Ht; [done|]. simpl. intros [= <-].
    apply splitOn_single in Hr as [-> Hocc]. by split_and!.
  - intros (-> & Hne & Hocc).
    change ("Bearer " +:+ token) with ("Bearer" +:+ String " " token).
    rewrite splitOn_append, (splitOn_whole " " token Hocc).
    change ("Bearer" +:+ String " " token) with (String "B" ("earer " +:+ token)).
    simpl. by destruct token.
Qed.

Lemma authenticate_next users findThrows req req' :
  authenticate users findThrows req = Next req' ↔
  ∃ token payload user,
    extractTokenFromHeader (req_authorization req) = Some token ∧
    jwtVerify token = Verified payload ∧
    findThrows = false ∧
    users !! jp_userId payload = Some user ∧
    acc_isActive user = true ∧
    req' = attach user req.
Proof.
  unfold authenticate, verifyAccessToken. split.
  - destruct (extractTokenFromHeader _) as [token|]; [|done].
    destruct (jwtVerify token) as [payload| | |] eqn:Hv; try done.
    destruct findThrows; [done|].
    destruct (users !! jp_userId payload) as [user|] eqn:Hu; [|done].
    destruct (acc_isActive user) eqn:Ha; [|done]. simpl. intros [= <-].
    by exists token, payload, user.
  - intros (token & payload & user & -> & -> & -> & -> & Ha & ->).
    by rewrite Ha.
Qed.

Lemma authenticate_user users findThrows req req' :
  authenticate users findThrows req = Next req' →
  ∃ user, req_user req' = Some user ∧ acc_isActive user = true.
Proof.
  intros (_ & _ & user & _ & _ & _ & _ & Ha & ->)%authenticate_next. by exists user.
Qed.

(** X17.  [authenticate] lets a request through exactly when the token of
    its header verifies and the user that the token names is in the table
    and active; [req.user] is then the row of the table, whatever role or
    e-mail the token carries.  Every other request is answered with 401 or
    with 500, and with 500 exactly when the token verifies and the look-up
    of the user throws. *)
Theorem authenticate_admits_active_users_only users findThrows req :
  (∀ req', authenticate users findThrows req = Next req' ↔
     ∃ token payload user,
       extractTokenFromHeader (req_authorization req) = Some token ∧
       jwtVerify token = Verified payload ∧
       findThrows = false ∧
       users !! jp_userId payload = Some user ∧
       acc_isActive user = true ∧
       req' = attach user req) ∧
  (∀ d, authenticate users findThrows req = Denied d →
     (den_code d = 401 ∨ den_code d = 500) ∧
     (den_code d = 500 ↔
      findThrows = true ∧
      ∃ token payload,
        extractTokenFromHeader (req_authorization req) = Some token ∧
        jwtVerify token = Verified payload)).
Proof.
  split; [intros req'; apply authenticate_next|].
  intros d. unfold authenticate, verifyAccessToken.
  destruct (extractTokenFromHeader _) as [token|].
  2: { intros [= <-]. simpl. split; [by left|].
       split; [done|by intros (_ & ? & ? & ? & _)]. }
  destruct (jwtVerify token) as [payload| | |] eqn:Hv.
  2-4: intros [= <-]; simpl; (split; [by left|]);
       (split; [done|intros (_ & ? & ? & [= <-] & ?); congruence]).
  destruct findThrows.
  { intros [= <-]. simpl. split; [by right|]. split; [|done].
    intros _. split; [done|]. by exists token, payload. }
  destruct (users !! jp_userId payload) as [user|].
  2: { intros [= <-]. simpl. split; [by left|]. split; [done|by intros (? & _)]. }
  destruct (acc_isActive user); [done|].
  intros [= <-]. simpl. split; [by left|]. split; [done|by intros (? & _)].
Qed.

(** X18.  [optionalAuth] never answers: it attaches the user that
    [authenticate] would attach and, where [authenticate] would answer, lets
    the request through as it came. *)
Theorem optional_auth_agrees_with_authenticate users findThrows req :
  optionalAuth users findThrows req =
  match authenticate users findThrows req with
  | Next req' => Next req'
  | Denied _ => Next req
  end.
Proof.
  unfold optionalAuth, authenticate.
  destruct (extractTokenFromHeader _) as [token|]; [|done].
  destruct (verifyAccessToken token) as [|payload]; [done|].
  destruct findThrows; [done|].
  destruct (users !! jp_userId payload) as [user|]; [|done].
  by destruct (acc_isActive user).
Qed.

(** The middlewares behind [authenticate] that only look at [req.user]. *)
Inductive Guard : (AuthRequest → Middleware) → Prop :=
| Guard_role roles : Guard (requireRole roles)
| Guard_owner : Guard requireTeamOwnerOrAdmin
| Guard_email : Guard requireEmailVerification
| Guard_team : Guard requireActiveTeam.

Lemma Guard_outcome m req :
  Guard m → req_user req ≠ None →
  m req = Next req ∨ ∃ d, m req = Denied d ∧ den_code d = 403.
Proof.
  intros Hm Hu. destruct (req_user req) as [user|] eqn:Huser; [|done].
  destruct Hm; unfold requireRole, requireTeamOwnerOrAdmin, requireEmailVerification,
    requireActiveTeam, deny; rewrite Huser;
    match goal with |- context [if ?b then _ else _] => destruct b end; eauto.
Qed.

Lemma guards_outcome guards req :
  Forall Guard guards → req_user req ≠ None →
  runChain guards req = Next req ∨
  ∃ d, runChain guards req = Denied d ∧ den_code d = 403.
Proof.
  induction 1 as [|m guards Hm _ IH]; intros Hu; simpl; [by left|].
  destruct (Guard_outcome m req Hm Hu) as [->|(d & -> & Hd)]; eauto.
Qed.

(** X19.  Behind [authenticate], the middlewares that check the role, the
    e-mail or the team either let the request through unchanged or answer
    with 403: their 401 for a missing user is never sent, and the chain
    answers with 401 or 500 only where [authenticate] alone does. *)
Theorem guards_behind_authenticate_answer_403 users findThrows guards req :
  Forall Guard guards →
  match runChain (authenticate users findThrows :: guards) req with
  | Next req' => authenticate users findThrows req = Next req'
  | Denied d =>
      authenticate users findThrows req = Denied d ∨
      den_code d = 403 ∧ ∃ req', authenticate users findThrows req = Next req'
  end.
Proof.
  intros Hg. simpl.
  destruct (authenticate users findThrows req) as [req'|d] eqn:Ha; [|by left].
  destruct (authenticate_user _ _ _ _ Ha) as (user & Hu & _).
  destruct (guards_outcome guards req' Hg) as [->|(d & -> & Hd)]; [by rewrite Hu|done|].
  right. eauto.
Qed.

Lemma runChain_cons m rest req req' :
  runChain (m :: rest) req = Next req' ↔
  ∃ r, m req = Next r ∧ runChain rest r = Next req'.
Proof. simpl. destruct (m req); naive_solver. Qed.

Lemma requireEmailVerification_next req req' :
  requireEmailVerification req = Next req' ↔
  req' = req ∧ ∃ user, req_user req = Some user ∧ acc_emailVerified user = true.
Proof.
  unfold requireEmailVerification, notAuthenticated, deny.
  destruct (req_user req) as [user|]; [|split; [done|by intros (_ & ? & ? & _)]].
  destruct (acc_emailVerified user) eqn:He; simpl;
    (split; [intros [= <-]; split; try done; by exists user
            |intros (-> & u & [= <-] & ?); congruence]).
Qed.

Lemma requireActiveTeam_next req req' :
  requireActiveTeam req = Next req' ↔
  req' = req ∧ ∃ user team,
    req_user req = Some user ∧ acc_team user = Some team ∧ team_isActive team = true.
Proof.
  unfold requireActiveTeam, notAuthenticated, deny.
  destruct (req_user req) as [user|]; [|split; [done|by intros (_ & ? & ? & ? & _)]].
  destruct (acc_team user) as [team|] eqn:Ht;
    [|split; [done|intros (_ & u & t & [= <-] & ? & _); congruence]].
  destruct (team_isActive team) eqn:Hact; simpl;
    (split; [intros [= <-]; split; try done; by exists user, team
            |intros (-> & u & t & [= <-] & ? & ?); congruence]).
Qed.

Lemma requireTeamOwnerOrAdmin_next req req' :
  requireTeamOwnerOrAdmin req = Next req' ↔
  req' = req ∧ ∃ user,
    req_user req = Some user ∧ (acc_role user = ADMIN ∨ acc_role user = TEAM_OWNER).
Proof.
  unfold requireTeamOwnerOrAdmin, notAuthenticated, deny.
  destruct (req_user req) as [user|]; [|split; [done|by intros (_ & ? & ? & _)]].
  destruct (acc_role user) eqn:Hr; simpl;
    (split; [intros [= <-]; split; try done; exists user; split; try done; by eauto
            |intros (-> & u & [= <-] & [?|?]); congruence]).
Qed.

Lemma requireRole_next roles req req' :
  requireRole roles req = Next req' ↔
  req' = req ∧ ∃ user, req_user req = Some user ∧ acc_role user ∈ roles.
Proof.
  unfold requireRole, notAuthenticated, deny.
  destruct (req_user req) as [user|]; [|split; [done|by intros (_ & ? & ? & _)]].
  case_bool_decide; simpl;
    (split; [intros [= <-]; split; try done; by exists user
            |by intros (-> & u & [= <-] & ?)]).
Qed.

(** X20.  [requireTeamManager] lets through exactly the requests that
    [authenticate] lets through for a user with a verified e-mail, an
    active team and the role [ADMIN] or [TEAM_OWNER]. *)
Theorem team_manager_chain_admits users findThrows req req' :
  runChain (requireTeamManager users findThrows) req = Next req' ↔
  authenticate users findThrows req = Next req' ∧
  ∃ user team,
    req_user req' = Some user ∧
    acc_emailVerified user = true ∧
    acc_team user = Some team ∧ team_isActive team = true ∧
    (acc_role user = ADMIN ∨ acc_role user = TEAM_OWNER).
Proof.
  unfold requireTeamManager. split.
  - intros (r1 & Ha & H)%runChain_cons.
    apply runChain_cons in H
      as (r2 & (-> & u1 & Hu1 & He)%requireEmailVerification_next & H).
    apply runChain_cons in H
      as (r3 & (-> & u2 & team & Hu2 & Ht & Hact)%requireActiveTeam_next & H).
    apply runChain_cons in H
      as (r4 & (-> & u3 & Hu3 & Hr)%requireTeamOwnerOrAdmin_next & H).
    injection H as <-. split; [done|]. exists u1, team.
    assert (u2 = u1) as -> by congruence. assert (u3 = u1) as -> by congruence. done.
  - intros (Ha & user & team & Hu & He & Ht & Hact & Hr).
    apply runChain_cons. exists req'. split; [done|].
    apply runChain_cons. exists req'. split.
    { apply requireEmailVerification_next. split; [done|]. by exists user. }
    apply runChain_cons. exists req'. split.
    { apply requireActiveTeam_next. split; [done|]. by exists user, team. }
    apply runChain_cons. exists req'. split; [|done].
    apply requireTeamOwnerOrAdmin_next. split; [done|]. by exists user.
Qed.

(** X21.  A user with the role [SYSTEM_ADMIN], the role of the seeded
    administrator, is no administrator to the code: [requireSystemAdmin]
    answers with 403, [requireTeamManager] does not let the user through,
    and the image controller shows the user no generation of anyone else. *)
Theorem system_admin_role_has_no_admin_rights users findThrows req req' user :
  authenticate users findThrows req = Next req' →
  req_user req' = Some user →
  acc_role user = SYSTEM_ADMIN →
  runChain (requireSystemAdmin users findThrows) req =
    Denied (mkDenial 403 "Insufficient permissions" "INSUFFICIENT_PERMISSIONS"
              (Some ([ADMIN], SYSTEM_ADMIN))) ∧
  (∃ d, runChain (requireTeamManager users findThrows) req = Denied d ∧
        den_code d = 403) ∧
  ∀ w id g,
    imageGenerations w !! id = Some g → ig_userId g ≠ acc_id user →
    getImageGeneration false (mkGetRequest (Some (userOf user)) id) w =
      (Returned (mkResponse 403
         (ErrorBody "You can only access your own image generations"
            "INSUFFICIENT_PERMISSIONS")), w).
Proof.
  intros Ha Hu Hr. split_and!.
  - unfold requireSystemAdmin, requireAdmin, requireRole. simpl.
    rewrite Ha, Hu, Hr. done.
  - unfold requireTeamManager. simpl. rewrite Ha.
    unfold requireEmailVerification, requireActiveTeam, requireTeamOwnerOrAdmin, deny.
    rewrite Hu. destruct (acc_emailVerified user); simpl; [|eauto].
    rewrite Hu. destruct (acc_team user) as [[? ? ? []]|]; simpl; eauto.
    rewrite Hu, Hr. simpl. eauto.
  - intros w id g Hg Hown.
    unfold getImageGeneration, imageGeneration_findUnique, canAccessAs, adminOrOwner,
      userOf. unfold_handlers. simpl.
    rewrite Hg, Hr. simpl. by rewrite bool_decide_eq_false_2.
Qed.

End Auth.

(** ** The middlewares on a concrete table of users *)

(** The administrator of the seed script, a team owner and a member whose
    e-mail is not verified. *)
Definition mayalens : Team := mkTeam "team-1" "MayaLens" "FREE" true.

Definition sys : Account :=
  mkAccount "sys" "admin@mayalens.com" "System" "Administrator" SYSTEM_ADMIN true true 0 0
    (Some mayalens).

Definition owner : Account :=
  mkAccount "owner" "owner@mayalens.com" "Olga" "Owner" TEAM_OWNER true true 0 0
    (Some mayalens).

Definition accounts : gmap string Account := {[ "sys" := sys; "owner" := owner ]}.

(** A verification that knows two tokens. *)
Definition knownTokens (token : string) : JwtOutcome :=
  if bool_decide (token = "sys-token") then
    Verified (mkJwtPayload "sys" "admin@mayalens.com" SYSTEM_ADMIN)
  else if bool_decide (token = "owner-token") then
    Verified (mkJwtPayload "owner" "owner@mayalens.com" ADMIN)
  else JsonWebTokenError.

Definition sysRequest : AuthRequest := mkAuthRequest (Some "Bearer sys-token") None None.

Lemma guards_behind_authenticate_answer_403_witness :
  match runChain (authenticate knownTokens accounts false ::
                    [requireEmailVerification; requireRole [ADMIN]]) sysRequest with
  | Next req' => authenticate knownTokens accounts false sysRequest = Next req'
  | Denied d =>
      authenticate knownTokens accounts false sysRequest = Denied d ∨
      den_code d = 403 ∧
        ∃ req', authenticate knownTokens accounts false sysRequest = Next req'
  end.
Proof.
  apply (guards_behind_authenticate_answer_403 knownTokens accounts false
           [requireEmailVerification; requireRole [ADMIN]] sysRequest).
  repeat constructor.
Defined.

Lemma system_admin_role_has_no_admin_rights_witness :
  runChain (requireSystemAdmin knownTokens accounts false) sysRequest =
    Denied (mkDenial 403 "Insufficient permissions" "INSUFFICIENT_PERMISSIONS"
              (Some ([ADMIN], SYSTEM_ADMIN))) ∧
  (∃ d, runChain (requireTeamManager knownTokens accounts false) sysRequest = Denied d ∧
        den_code d = 403) ∧
  ∀ w id g,
    imageGenerations w !! id = Some g → ig_userId g ≠ acc_id sys →
    getImageGeneration false (mkGetRequest (Some (userOf sys)) id) w =
      (Returned (mkResponse 403
         (ErrorBody "You can only access your own image generations"
            "INSUFFICIENT_PERMISSIONS")), w).
Proof.
  apply (system_admin_role_has_no_admin_rights knownTokens accounts false sysRequest
           (mkAuthRequest (Some "Bearer sys-token") (Some sys) (Some "sys")) sys).
  - vm_compute. reflexivity.
  - reflexivity.
  - reflexivity.
Defined.

(** * The routes of the image router *)



(** * The upload middleware *)

(** What [handleMulterError] tests of an error: whether it is an instance of
    [multer.MulterError], its code and its message. *)
Record JsError := mkJsError {
  err_isMulterError : bool;
  err_code : option string;
  err_message : string
}.

(** [handleMulterError]: its answer, or [None] where it passes the error
    on. *)
Definition handleMulterError (error : JsError) : option Response :=
  if err_isMulterError error then
    Some (
      if bool_decide (err_code error = Some "LIMIT_FILE_SIZE") then
        mkResponse 400
          (ErrorBody "File size too large. Maximum size is 10MB." "FILE_TOO_LARGE")
      else if bool_decide (err_code error = Some "LIMIT_FILE_COUNT") then
        mkResponse 400 (ErrorBody "Too many files. Maximum is 5 files." "TOO_MANY_FILES")
      else if bool_decide (err_code error = Some "LIMIT_UNEXPECTED_FILE") then
        mkResponse 400 (ErrorBody "Unexpected file field." "UNEXPECTED_FILE")
      else mkResponse 400 (ErrorBody "File upload error." "UPLOAD_ERROR"))
  else if truthyStr (Some (err_message error)) then
    Some (mkResponse 400 (ErrorBody (err_message error) "INVALID_FILE"))
  else None.

Definition allowedTypes : list string :=
  ["image/jpeg"; "image/jpg"; "image/png"; "image/webp"; "image/gif"].

(** [fileFilter]: [None] where it accepts the file, the error it hands to
    its callback where it does not. *)
Definition fileFilter (mimetype : string) : option JsError :=
  if String.prefix "image/" mimetype then
    if bool_decide (mimetype ∈ allowedTypes) then None
    else Some (mkJsError false None
           "Invalid file type. Only JPEG, PNG, WebP, and GIF images are allowed.")
  else Some (mkJsError false None "Only image files are allowed.").

(** X23.  The filter of the upload accepts the five image types of its list
    and no other, and [handleMulterError] answers what the filter refuses
    with 400, [INVALID_FILE] and the message of the filter. *)
Theorem upload_accepts_five_image_types mimetype :
  (fileFilter mimetype = None ↔ mimetype ∈ allowedTypes) ∧
  ∀ error, fileFilter mimetype = Some error →
    handleMulterError error =
      Some (mkResponse 400 (ErrorBody (err_message error) "INVALID_FILE")).
Proof.
  unfold fileFilter. split.
  - split.
    + destruct (String.prefix "image/" mimetype); [|done]. by case_bool_decide.
    + intros Hin. unfold allowedTypes in *.
      repeat (apply elem_of_cons in Hin as [->|Hin]); try done.
      by apply elem_of_nil in Hin.
  - intros error. destruct (String.prefix "image/" mimetype);
      [case_bool_decide; [done|]|]; by intros [= <-].
Qed.

(** * The rules for passwords *)

Lemma chars_app s1 s2 :
  list_ascii_of_string (s1 +:+ s2) = list_ascii_of_string s1 ++ list_ascii_of_string s2.
Proof. induction s1 as [|a s1 IH]; [done|]. rewrite append_cons. simpl. by rewrite IH. Qed.

Definition PASSWORD_MIN_LENGTH : nat := 8.
Definition PASSWORD_MAX_LENGTH : nat := 128.

(** [pattern.test(s)] for a pattern of one character class. *)
Definition anyChar (class : ascii → bool) (s : string) : bool :=
  existsb class (list_ascii_of_string s).

Definition between (lo hi : ascii) (c : ascii) : bool :=
  ((nat_of_ascii lo <=? nat_of_ascii c) && (nat_of_ascii c <=? nat_of_ascii hi))%nat.

Definition doubleQuote : ascii := ascii_of_nat 34.

(** The characters of the class of [hasSpecialChar]. *)
Definition specialChars : list ascii :=
  list_ascii_of_string "!@#$%^&*(),.?" ++ doubleQuote :: list_ascii_of_string ":{}|<>".

Definition hasLowerCase : string → bool := anyChar (between "a" "z").
Definition hasUpperCase : string → bool := anyChar (between "A" "Z").
Definition hasNumbers : string → bool := anyChar (between "0" "9").
Definition hasSpecialChar : string → bool := anyChar (λ c, bool_decide (c ∈ specialChars)).
Definition noWhitespace (s : string) : bool := negb (anyChar isWhiteSpace s).

(** [s.includes(sub)] *)
Fixpoint includes (s sub : string) : bool :=
  String.prefix sub s ||
  match s with
  | EmptyString => false
  | String _ r => includes r sub
  end.

Definition commonPasswords : list string :=
  [ "password"; "123456"; "123456789"; "qwerty"; "abc123";
    "password123"; "admin"; "letmein"; "welcome"; "monkey";
    "1234567890"; "password1"; "123123"; "qwerty123";
    "iloveyou"; "princess"; "admin123"; "welcome123" ].

(** The loop of [hasRepeatingCharacters] from the character behind [prev]
    on; its result is [maxConsecutive]. *)
Fixpoint repeatLoop (prev : ascii) (rest : list ascii) (consecutiveCount maxConsecutive : nat)
    : nat :=
  match rest with
  | [] => maxConsecutive
  | c :: rest' =>
      if bool_decide (c = prev) then
        repeatLoop c rest' (consecutiveCount + 1)
          (Nat.max maxConsecutive (consecutiveCount + 1))
      else repeatLoop c rest' 1 maxConsecutive
  end.

Definition hasRepeatingCharacters (password : string) : bool :=
  match list_ascii_of_string password with
  | [] => (3 <? 1)%nat
  | c :: rest => (3 <? repeatLoop c rest 1 1)%nat
  end.

Inductive Strength := Weak | Medium | Strong.

Record PasswordValidationResult := mkPasswordValidationResult {
  vp_isValid : bool;
  vp_errors : list string;
  vp_strength : Strength;
  vp_score : nat
}.

(** Four equal characters in a row, somewhere in the list. *)
Fixpoint four (l : list ascii) : bool :=
  match l with
  | [] => false
  | a :: t =>
      match t with
      | b :: c :: d :: _ => bool_decide (a = b ∧ b = c ∧ c = d)
      | _ => false
      end || four t
  end.

Lemma four_run l :
  four l = true ↔ ∃ pre a post, l = pre ++ a :: a :: a :: a :: post.
Proof.
  induction l as [|x t IH].
  - split; [done|]. intros (pre & a & post & H). by destruct pre.
  - change (four (x :: t)) with
      (match t with
       | b :: c :: d :: _ => bool_decide (x = b ∧ b = c ∧ c = d)
       | _ => false
       end || four t).
    rewrite orb_true_iff, IH. split.
    + intros [H|(pre & a & post & ->)].
      * destruct t as [|b [|c [|d post]]]; try done.
        apply bool_decide_eq_true in H as (-> & -> & ->). by exists [], d, post.
      * by exists (x :: pre), a, post.
    + intros ([|y pre] & a & post & H); simplify_eq/=.
      * left. by apply bool_decide_eq_true.
      * right. by exists pre, a, post.
Qed.

Lemma four_replicate n a l : (4 ≤ n)%nat → four (replicate n a ++ l) = true.
Proof.
  intros Hn. apply four_run.
  exists [], a, (replicate (n - 4) a ++ l).
  do 4 (destruct n as [|n]; [lia|]). simpl. by rewrite Nat.sub_0_r.
Qed.

Lemma four_boundary n a c l :
  c ≠ a → four (replicate n a ++ c :: l) = bool_decide (4 ≤ n)%nat || four (c :: l).
Proof.
  intros Hc. induction n as [|n IH]; [done|].
  destruct (decide (4 ≤ S n)%nat) as [Hn|Hn].
  - rewrite four_replicate by done. by rewrite bool_decide_eq_true_2.
  - rewrite (bool_decide_eq_false_2 _ Hn).
    rewrite (bool_decide_eq_false_2 (4 ≤ n)%nat) in IH by lia.
    change (replicate (S n) a ++ c :: l) with (a :: (replicate n a ++ c :: l)).
    change (four (a :: (replicate n a ++ c :: l))) with
      (match replicate n a ++ c :: l with
       | b :: c' :: d :: _ => bool_decide (a = b ∧ b = c' ∧ c' = d)
       | _ => false
       end || four (replicate n a ++ c :: l)).
    rewrite IH. simpl.
    do 3 (destruct n as [|n]; simpl;
          [repeat case_match; try done; simplify_eq;
           rewrite bool_decide_eq_false_2; naive_solver|]).
    lia.
Qed.

Lemma repeatLoop_four rest : ∀ prev count maxc,
  (1 ≤ count ≤ maxc)%nat →
  (3 <? repeatLoop prev rest count maxc)%nat =
  bool_decide (3 < maxc)%nat || four (replicate count prev ++ rest).
Proof.
  induction rest as [|c rest IH]; intros prev count maxc Hc; simpl.
  - destruct (decide (4 ≤ count)%nat) as [H4|H4].
    + rewrite (four_replicate count prev []) by done.
      rewrite bool_decide_eq_true_2 by lia. apply Nat.ltb_lt. lia.
    + replace (four (replicate count prev ++ [])) with false.
      * rewrite orb_false_r. by destruct (Nat.ltb_spec 3 maxc); case_bool_decide; try lia.
      * symmetry. apply not_true_is_false. intros (pre & a & post & H)%four_run.
        apply (f_equal List.length) in H.
        rewrite !length_app, length_replicate in H. simpl in H. lia.
  - case_bool_decide as Heq.
    + subst c. rewrite IH by lia.
      replace (replicate count prev ++ prev :: rest)
        with (replicate (count + 1) prev ++ rest).
      2: { rewrite Nat.add_1_r, replicate_S_end, <- app_assoc. done. }
      destruct (decide (3 < maxc)%nat) as [Hm|Hm].
      * rewrite !bool_decide_eq_true_2 by lia. done.
      * rewrite (bool_decide_eq_false_2 (3 < maxc)%nat) by done.
        destruct (decide (4 ≤ count + 1)%nat).
        -- rewrite four_replicate by done. by rewrite orb_true_r.
        -- rewrite bool_decide_eq_false_2 by lia. done.
    + rewrite IH by lia. rewrite (four_boundary count prev c rest Heq). simpl.
      destruct (decide (3 < maxc)%nat) as [Hm|Hm].
      * by rewrite !bool_decide_eq_true_2 by lia.
      * rewrite !(bool_decide_eq_false_2 (3 < maxc)%nat) by done.
        rewrite (bool_decide_eq_false_2 (4 ≤ count)%nat) by lia. done.
Qed.

(** X24.  [hasRepeatingCharacters] answers [true] exactly for a password
    with four equal characters in a row. *)
Theorem repeating_characters_are_runs_of_four password :
  hasRepeatingCharacters password = true ↔
  ∃ pre a post, password = pre +:+ String a (String a (String a (String a post))).
Proof.
  unfold hasRepeatingCharacters.
  transitivity (four (list_ascii_of_string password) = true).
  - destruct (list_ascii_of_string password) as [|c rest]; [done|].
    rewrite repeatLoop_four by lia. done.
  - rewrite four_run. split.
    + intros (pre & a & post & H).
      exists (string_of_list_ascii pre), a, (string_of_list_ascii post).
      apply chars_inj. rewrite H.
      rewrite chars_app. simpl. by rewrite !list_ascii_of_string_of_list_ascii.
    + intros (pre & a & post & ->).
      exists (list_ascii_of_string pre), a, (list_ascii_of_string post).
      by rewrite chars_app.
Qed.

Section Password.

(** [String.prototype.toLowerCase] *)
Variable toLowerCase : string → string.

Definition isCommonPassword (password : string) : bool :=
  let lowerPassword := toLowerCase password in
  existsb (λ common, includes lowerPassword common || includes common lowerPassword)
    commonPasswords.

(** A check that adds to the score where it passes and to the errors where
    it fails. *)
Definition scored (failed : bool) (message : string) (st : list string * nat)
    : list string * nat :=
  if failed then (st.1 ++ [message], st.2) else (st.1, st.2 + 1)%nat.

(** A check that only adds to the errors. *)
Definition unscored (failed : bool) (message : string) (st : list string * nat)
    : list string * nat :=
  if failed then (st.1 ++ [message], st.2) else st.

(** A check that adds to the errors and takes from the score. *)
Definition penalty (failed : bool) (message : string) (n : nat) (st : list string * nat)
    : list string * nat :=
  if failed then (st.1 ++ [message], Nat.max 0 (st.2 - n)) else st.

Definition validatePassword (password : string) : PasswordValidationResult :=
  let len := String.length password in
  let st : list string * nat := ([], 0%nat) in
  let st :=
    if (len <? PASSWORD_MIN_LENGTH)%nat then
      (st.1 ++ ["Password must be at least 8 characters long"], st.2)
    else if (PASSWORD_MIN_LENGTH <=? len)%nat then (st.1, st.2 + 1)%nat
    else st in
  let st := unscored (PASSWORD_MAX_LENGTH <? len)%nat
              "Password must not exceed 128 characters" st in
  let st := scored (negb (hasLowerCase password))
              "Password must contain at least one lowercase letter" st in
  let st := scored (negb (hasUpperCase password))
              "Password must contain at least one uppercase letter" st in
  let st := scored (negb (hasNumbers password))
              "Password must contain at least one number" st in
  let st := scored (negb (hasSpecialChar password))
              ("Password must contain at least one special character (!@#$%^&*(),.?"
               +:+ String doubleQuote ":{}|<>)") st in
  let st := unscored (negb (noWhitespace password))
              "Password must not contain whitespace characters" st in
  let st := penalty (isCommonPassword password)
              "Password is too common. Please choose a more unique password" 2 st in
  let st := penalty (hasRepeatingCharacters password)
              "Password should not have too many repeating characters" 1 st in
  let score := st.2 in
  let strength :=
    if (score <=? 2)%nat then Weak
    else if (score <=? 4)%nat then Medium
    else Strong in
  mkPasswordValidationResult (bool_decide (List.length st.1 = 0%nat)) st.1 strength score.

(** ** Properties *)

Lemma scored_errors failed message st :
  (scored failed message st).1 = [] → failed = false ∧ st.1 = [].
Proof. unfold scored. destruct failed; simpl; [by destruct (st.1)|done]. Qed.

Lemma unscored_errors failed message st :
  (unscored failed message st).1 = [] → failed = false ∧ st.1 = [].
Proof. unfold unscored. destruct failed; simpl; [by destruct (st.1)|done]. Qed.

Lemma penalty_errors failed message n st :
  (penalty failed message n st).1 = [] → failed = false ∧ st.1 = [].
Proof. unfold penalty. destruct failed; simpl; [by destruct (st.1)|done]. Qed.

(** X25.  A password that [validatePassword] finds valid has passed every
    check, so its score is 5 and its strength is [strong]: the ratings
    [weak] and [medium] are given to invalid passwords only. *)
Theorem valid_password_is_strong password :
  vp_isValid (validatePassword password) = true →
  vp_score (validatePassword password) = 5%nat ∧
  vp_strength (validatePassword password) = Strong ∧
  (8 ≤ String.length password ≤ 128)%nat ∧
  hasLowerCase password = true ∧ hasUpperCase password = true ∧
  hasNumbers password = true ∧ hasSpecialChar password = true ∧
  noWhitespace password = true ∧
  isCommonPassword password = false ∧ hasRepeatingCharacters password = false.
Proof.
  unfold validatePassword. cbv zeta. cbn [vp_isValid vp_score vp_strength].
  intros Hvalid. apply bool_decide_eq_true in Hvalid. apply length_zero_iff_nil in Hvalid.
  apply penalty_errors in Hvalid as [Hrep Hvalid]. rewrite Hrep.
  apply penalty_errors in Hvalid as [Hcommon Hvalid]. rewrite Hcommon.
  apply unscored_errors in Hvalid as [Hws Hvalid]. rewrite Hws.
  apply scored_errors in Hvalid as [Hspecial Hvalid]. rewrite Hspecial.
  apply scored_errors in Hvalid as [Hnum Hvalid]. rewrite Hnum.
  apply scored_errors in Hvalid as [Hup Hvalid]. rewrite Hup.
  apply scored_errors in Hvalid as [Hlow Hvalid]. rewrite Hlow.
  apply unscored_errors in Hvalid as [Hmax Hvalid]. rewrite Hmax.
  unfold PASSWORD_MIN_LENGTH, PASSWORD_MAX_LENGTH in *.
  destruct (String.length password <? 8)%nat eqn:Hmin; [done|].
  apply Nat.ltb_ge in Hmin, Hmax.
  destruct (8 <=? String.length password)%nat eqn:Hmin'; [|apply Nat.leb_gt in Hmin'; lia].
  apply negb_false_iff in Hws, Hspecial, Hnum, Hup, Hlow.
  unfold penalty, unscored, scored. simpl. by split_and!.
Qed.

End Password.

(** ** A valid password *)

(** [toLowerCase] on the letters of ASCII. *)
Definition lowerUnit (c : ascii) : ascii :=
  if between "A" "Z" c then ascii_of_nat (nat_of_ascii c + 32) else c.

Fixpoint lowerAscii (s : string) : string :=
  match s with
  | EmptyString => EmptyString
  | String c r => String (lowerUnit c) (lowerAscii r)
  end.

Lemma valid_password_is_strong_witness :
  vp_score (validatePassword lowerAscii "Lamp#Shade7x") = 5%nat ∧
  vp_strength (validatePassword lowerAscii "Lamp#Shade7x") = Strong ∧
  (8 ≤ String.length "Lamp#Shade7x" ≤ 128)%nat ∧
  hasLowerCase "Lamp#Shade7x" = true ∧ hasUpperCase "Lamp#Shade7x" = true ∧
  hasNumbers "Lamp#Shade7x" = true ∧ hasSpecialChar "Lamp#Shade7x" = true ∧
  noWhitespace "Lamp#Shade7x" = true ∧
  isCommonPassword lowerAscii "Lamp#Shade7x" = false ∧
  hasRepeatingCharacters "Lamp#Shade7x" = false.
Proof.
  apply (valid_password_is_strong lowerAscii "Lamp#Shade7x").
  vm_compute. reflexivity.
Defined.
